(** * Shallow embedding of the Solidity contracts [ParkingSystem]
      (src/unnamed/part_001) and [ParkingOracle]
      (src/blockchain/contracts/ParkingOracle.sol).

    Conventions of the embedding:
    - [uint256] values and addresses are [Z]; Solidity 0.8 arithmetic is
      checked, so every [+], [-], [*] and [++] goes through [checked], which
      reverts with [Panic] outside [0, 2^256 - 1].
    - A [mapping] is a [gmap] read through a zero default: reading an absent
      key yields the all-zero struct, exactly as the EVM does.
    - An external call runs in a state/error/log monad [M]: [require]
      reverts with the reason of the [require], [emit] appends an event.
      A reverted call leaves the storage untouched ([exec]).
    - [payable(a).transfer(v)] is logged as a [Transfer] entry; recipients
      are externally owned accounts, so transfers succeed and no reentrant
      call happens (the [nonReentrant] guard therefore always passes). *)

From Stdlib Require Import ZArith Lia.
From stdpp Require Import base gmap list strings.
From Stdlib Require Import Sorted.

Open Scope Z_scope.

Definition UINT_MAX : Z := 2 ^ 256 - 1.

(** Reasons of the [require]s of both contracts (and the OpenZeppelin
    modifiers they inherit). *)
Inductive Err :=
  | Panic                      (* arithmetic overflow / array out of bounds *)
  | OwnableUnauthorizedAccount (* onlyOwner *)
  | OwnableInvalidOwner
  | EnforcedPause              (* whenNotPaused *)
  | ExpectedPause              (* whenPaused *)
  (* ParkingSystem *)
  | TarifNul                   (* "Le tarif doit être supérieur à 0" *)
  | PlaceInexistante           (* "Place de parking inexistante" *)
  | ReservationInexistante     (* "Réservation inexistante" *)
  | SeulOracle                 (* "Seul l'oracle peut appeler cette fonction" *)
  | PlaceInactive              (* "Place de parking inactive" *)
  | PlaceDejaOccupee           (* "Place déjà occupée" *)
  | HeureDebutInvalide         (* "Heure de début invalide" *)
  | HeureFinInvalide           (* "Heure de fin invalide" *)
  | DureeMinimale              (* "Durée minimale non respectée" *)
  | DureeMaximale              (* "Durée maximale dépassée" *)
  | PlaceDejaReservee          (* "Place déjà réservée pour cette période" *)
  | PaiementInsuffisant        (* "Paiement insuffisant" *)
  | ReservationNonActive       (* "Réservation non active" *)
  | ReservationDejaCommencee   (* "Réservation déjà commencée" *)
  | ReservationNonCommencee    (* "Réservation non commencée" *)
  | ReservationDejaTerminee    (* "Réservation déjà terminée" *)
  | PasAutorise                (* "Pas autorisé" *)
  | AnnulationApresDebut       (* "Impossible d'annuler après le début" *)
  | TropTardPourAnnuler        (* "Trop tard pour annuler" *)
  | FraisMaximum               (* "Frais maximum 20%" *)
  | AdresseOracleInvalide      (* "Adresse oracle invalide" *)
  (* ParkingOracle *)
  | OracleNonAutorise          (* "Oracle non autorisé" *)
  | IdPlaceInvalide            (* "ID de place invalide" *)
  | CooldownNonEcoule          (* "Cooldown non écoulé" *)
  | AdresseInvalide            (* "Adresse invalide" *)
  | OracleDejaActif            (* "Oracle déjà actif" *)
  | OracleNonActif             (* "Oracle non actif" *)
  | ConfianceInsuffisante      (* "Confiance insuffisante" *)
  | DonneesDejaTraitees        (* "Données déjà traitées" *)
  | TypeCapteurRequis          (* "Type de capteur requis" *)
  | ReputationMaximale         (* "Réputation maximale 1000" *)
  | OracleInexistant.          (* "Oracle inexistant" *)

(** ** The execution monad: storage [S], event log [E], revert reason [Err]. *)
Definition M (S E A : Type) : Type := S -> Err + (A * S * list E).

Definition ret {S E A} (a : A) : M S E A := fun s => inr (a, s, []).

Definition bind {S E A B} (m : M S E A) (k : A -> M S E B) : M S E B :=
  fun s =>
    match m s with
    | inl e => inl e
    | inr (a, s1, l1) =>
        match k a s1 with
        | inl e => inl e
        | inr (b, s2, l2) => inr (b, s2, l1 ++ l2)
        end
    end.

Declare Scope sol_scope.
Notation "x <- m ;; k" := (bind m (fun x => k))
  (at level 100, m at next level, k at level 200, right associativity)
  : sol_scope.
Notation "m ;; k" := (bind m (fun _ : unit => k))
  (at level 100, k at level 200, right associativity) : sol_scope.
Open Scope sol_scope.

Definition require {S E} (b : bool) (e : Err) : M S E unit :=
  fun s => if b then inr (tt, s, []) else inl e.

Definition get {S E} : M S E S := fun s => inr (s, s, []).
Definition put {S E} (s : S) : M S E unit := fun _ => inr (tt, s, []).
Definition emit {S E} (ev : E) : M S E unit := fun s => inr (tt, s, [ev]).

(** Checked (Solidity >= 0.8) result of a [uint256] operation. *)
Definition checked {S E} (v : Z) : M S E Z :=
  require ((0 <=? v) && (v <=? UINT_MAX)) Panic;; ret v.

(** Outcome of a transaction: on revert the storage is unchanged. *)
Definition exec {S E A} (m : M S E A) (s : S) : S :=
  match m s with
  | inl _ => s
  | inr (_, s', _) => s'
  end.

(** Sum of a [Z]-valued function over the entries of a storage map. *)
Definition sumZ {K V} `{Countable K} (f : K -> V -> Z) (m : gmap K V) : Z :=
  map_fold (fun k v acc => f k v + acc) 0 m.

(** ** Contract [ParkingSystem] (src/unnamed/part_001) *)
Module ParkingSystem.

(** [struct ParkingSpot] *)
Module Spot.
Record t := mk {
  spotId : Z;
  location : string;
  hourlyRate : Z;
  isActive : bool;
  isOccupied : bool;
  currentUser : Z;
  reservationEnd : Z;
  totalEarnings : Z;
  totalOccupations : Z
}.
Definition zero : t := mk 0 "" 0 false false 0 0 0 0.
End Spot.

(** [enum ReservationStatus] *)
Inductive ReservationStatus := Active | Completed | Cancelled | Expired.

Definition status_eqb (a b : ReservationStatus) : bool :=
  match a, b with
  | Active, Active | Completed, Completed
  | Cancelled, Cancelled | Expired, Expired => true
  | _, _ => false
  end.

(** [struct Reservation] *)
Module Reservation.
Record t := mk {
  reservationId : Z;
  user : Z;
  spotId : Z;
  startTime : Z;
  endTime : Z;
  totalCost : Z;
  paidAmount : Z;
  status : ReservationStatus;
  actualStartTime : Z;
  actualEndTime : Z
}.
(** The zero struct: its [status] is the first enum member, [Active]. *)
Definition zero : t := mk 0 0 0 0 0 0 0 Active 0 0.
End Reservation.

(** Storage of the contract, with the inherited [Ownable] and [Pausable]
    slots. *)
Record State := mkState {
  parkingSpots : gmap Z Spot.t;
  reservations : gmap Z Reservation.t;
  userReservations : gmap Z (list Z);
  spotExists : gmap Z bool;
  nextSpotId : Z;
  nextReservationId : Z;
  platformFeePercentage : Z;
  totalPlatformEarnings : Z;
  oracleAddress : Z;
  owner : Z;
  paused : bool
}.

Inductive Event :=
  | SpotCreated (spotId : Z) (location : string) (hourlyRate : Z)
  | ReservationCreated (reservationId user spotId startTime endTime totalCost : Z)
  | ReservationStarted (reservationId actualStartTime : Z)
  | ReservationCompleted (reservationId actualEndTime actualCost refundAmount : Z)
  | ReservationCancelled (reservationId refundAmount : Z)
  | SpotOccupancyChanged (spotId : Z) (isOccupied : bool) (user : Z)
  | PlatformFeeUpdated (newFeePercentage : Z)
  | OracleUpdated (newOracle : Z)
  | Paused (account : Z)
  | Unpaused (account : Z)
  | OwnershipTransferred (previousOwner newOwner : Z)
  (** [payable(to).transfer(amount)] *)
  | Transfer (to amount : Z).

(** The transaction context: [msg.sender], [block.timestamp], [msg.value]. *)
Record Ctx := mkCtx { sender : Z; now : Z; value : Z }.

Abbreviation PS := (M State Event).

Definition MIN_RESERVATION_TIME : Z := 3600.
Definition MAX_RESERVATION_TIME : Z := 24 * 3600.

Definition spot_at (st : State) (k : Z) : Spot.t :=
  default Spot.zero (parkingSpots st !! k).
Definition reservation_at (st : State) (k : Z) : Reservation.t :=
  default Reservation.zero (reservations st !! k).
Definition spot_exists (st : State) (k : Z) : bool :=
  default false (spotExists st !! k).

(** Storage writes. *)
Definition set_spot (k : Z) (sp : Spot.t) : PS unit :=
  st <- get;; put (mkState (<[k := sp]> (parkingSpots st)) (reservations st)
    (userReservations st) (spotExists st) (nextSpotId st)
    (nextReservationId st) (platformFeePercentage st)
    (totalPlatformEarnings st) (oracleAddress st) (owner st) (paused st)).
Definition set_reservation (k : Z) (r : Reservation.t) : PS unit :=
  st <- get;; put (mkState (parkingSpots st) (<[k := r]> (reservations st))
    (userReservations st) (spotExists st) (nextSpotId st)
    (nextReservationId st) (platformFeePercentage st)
    (totalPlatformEarnings st) (oracleAddress st) (owner st) (paused st)).
Definition set_userReservations (k : Z) (l : list Z) : PS unit :=
  st <- get;; put (mkState (parkingSpots st) (reservations st)
    (<[k := l]> (userReservations st)) (spotExists st) (nextSpotId st)
    (nextReservationId st) (platformFeePercentage st)
    (totalPlatformEarnings st) (oracleAddress st) (owner st) (paused st)).
Definition set_spotExists (k : Z) (b : bool) : PS unit :=
  st <- get;; put (mkState (parkingSpots st) (reservations st)
    (userReservations st) (<[k := b]> (spotExists st)) (nextSpotId st)
    (nextReservationId st) (platformFeePercentage st)
    (totalPlatformEarnings st) (oracleAddress st) (owner st) (paused st)).
Definition set_nextSpotId (v : Z) : PS unit :=
  st <- get;; put (mkState (parkingSpots st) (reservations st)
    (userReservations st) (spotExists st) v
    (nextReservationId st) (platformFeePercentage st)
    (totalPlatformEarnings st) (oracleAddress st) (owner st) (paused st)).
Definition set_nextReservationId (v : Z) : PS unit :=
  st <- get;; put (mkState (parkingSpots st) (reservations st)
    (userReservations st) (spotExists st) (nextSpotId st)
    v (platformFeePercentage st)
    (totalPlatformEarnings st) (oracleAddress st) (owner st) (paused st)).
Definition set_platformFeePercentage (v : Z) : PS unit :=
  st <- get;; put (mkState (parkingSpots st) (reservations st)
    (userReservations st) (spotExists st) (nextSpotId st)
    (nextReservationId st) v
    (totalPlatformEarnings st) (oracleAddress st) (owner st) (paused st)).
Definition set_totalPlatformEarnings (v : Z) : PS unit :=
  st <- get;; put (mkState (parkingSpots st) (reservations st)
    (userReservations st) (spotExists st) (nextSpotId st)
    (nextReservationId st) (platformFeePercentage st)
    v (oracleAddress st) (owner st) (paused st)).
Definition set_oracleAddress (v : Z) : PS unit :=
  st <- get;; put (mkState (parkingSpots st) (reservations st)
    (userReservations st) (spotExists st) (nextSpotId st)
    (nextReservationId st) (platformFeePercentage st)
    (totalPlatformEarnings st) v (owner st) (paused st)).
Definition set_owner (v : Z) : PS unit :=
  st <- get;; put (mkState (parkingSpots st) (reservations st)
    (userReservations st) (spotExists st) (nextSpotId st)
    (nextReservationId st) (platformFeePercentage st)
    (totalPlatformEarnings st) (oracleAddress st) v (paused st)).
Definition set_paused (v : bool) : PS unit :=
  st <- get;; put (mkState (parkingSpots st) (reservations st)
    (userReservations st) (spotExists st) (nextSpotId st)
    (nextReservationId st) (platformFeePercentage st)
    (totalPlatformEarnings st) (oracleAddress st) (owner st) v).

(** Modifiers. *)
Definition onlyOwner (c : Ctx) : PS unit :=
  st <- get;; require (sender c =? owner st) OwnableUnauthorizedAccount.
Definition whenNotPaused : PS unit :=
  st <- get;; require (negb (paused st)) EnforcedPause.
Definition whenPaused : PS unit :=
  st <- get;; require (paused st) ExpectedPause.
Definition onlyOracle (c : Ctx) : PS unit :=
  st <- get;; require (sender c =? oracleAddress st) SeulOracle.
Definition spotExistsModifier (k : Z) : PS unit :=
  st <- get;; require (spot_exists st k) PlaceInexistante.
Definition validReservation (k : Z) : PS unit :=
  st <- get;; require (k <? nextReservationId st) ReservationInexistante.

(** [createParkingSpot(_location, _hourlyRate)] *)
Definition createParkingSpot (c : Ctx) (_location : string) (_hourlyRate : Z)
    : PS unit :=
  onlyOwner c;;
  require (_hourlyRate >? 0) TarifNul;;
  st <- get;;
  let spotId := nextSpotId st in
  n <- checked (spotId + 1);;
  set_nextSpotId n;;
  set_spot spotId (Spot.mk spotId _location _hourlyRate true false 0 0 0 0);;
  set_spotExists spotId true;;
  emit (SpotCreated spotId _location _hourlyRate).

(** [reserveSpot(_spotId, _startTime, _endTime)] (payable) *)
Definition reserveSpot (c : Ctx) (_spotId _startTime _endTime : Z) : PS unit :=
  whenNotPaused;;
  spotExistsModifier _spotId;;
  st <- get;;
  let spot := spot_at st _spotId in
  require (Spot.isActive spot) PlaceInactive;;
  require (negb (Spot.isOccupied spot)) PlaceDejaOccupee;;
  require (_startTime >=? now c) HeureDebutInvalide;;
  require (_endTime >? _startTime) HeureFinInvalide;;
  d1 <- checked (_endTime - _startTime);;
  require (d1 >=? MIN_RESERVATION_TIME) DureeMinimale;;
  d2 <- checked (_endTime - _startTime);;
  require (d2 <=? MAX_RESERVATION_TIME) DureeMaximale;;
  require (_startTime >=? Spot.reservationEnd spot) PlaceDejaReservee;;
  duration <- checked (_endTime - _startTime);;
  m <- checked (duration * Spot.hourlyRate spot);;
  let totalCost := m / 3600 in
  require (value c >=? totalCost) PaiementInsuffisant;;
  let reservationId := nextReservationId st in
  n <- checked (reservationId + 1);;
  set_nextReservationId n;;
  set_reservation reservationId
    (Reservation.mk reservationId (sender c) _spotId _startTime _endTime
       totalCost (value c) Active 0 0);;
  st1 <- get;;
  set_userReservations (sender c)
    (default [] (userReservations st1 !! sender c) ++ [reservationId]);;
  set_spot _spotId
    (Spot.mk (Spot.spotId spot) (Spot.location spot) (Spot.hourlyRate spot)
       (Spot.isActive spot) (Spot.isOccupied spot) (Spot.currentUser spot)
       _endTime (Spot.totalEarnings spot) (Spot.totalOccupations spot));;
  (if value c >? totalCost then emit (Transfer (sender c) (value c - totalCost))
   else ret tt);;
  emit (ReservationCreated reservationId (sender c) _spotId _startTime _endTime
          totalCost).

(** [startReservation(_reservationId)] *)
Definition startReservation (c : Ctx) (_reservationId : Z) : PS unit :=
  onlyOracle c;;
  validReservation _reservationId;;
  st <- get;;
  let r := reservation_at st _reservationId in
  require (status_eqb (Reservation.status r) Active) ReservationNonActive;;
  require (Reservation.actualStartTime r =? 0) ReservationDejaCommencee;;
  let spot := spot_at st (Reservation.spotId r) in
  set_reservation _reservationId
    (Reservation.mk (Reservation.reservationId r) (Reservation.user r)
       (Reservation.spotId r) (Reservation.startTime r) (Reservation.endTime r)
       (Reservation.totalCost r) (Reservation.paidAmount r)
       (Reservation.status r) (now c) (Reservation.actualEndTime r));;
  occ <- checked (Spot.totalOccupations spot + 1);;
  set_spot (Reservation.spotId r)
    (Spot.mk (Spot.spotId spot) (Spot.location spot) (Spot.hourlyRate spot)
       (Spot.isActive spot) true (Reservation.user r)
       (Spot.reservationEnd spot) (Spot.totalEarnings spot) occ);;
  emit (ReservationStarted _reservationId (now c));;
  emit (SpotOccupancyChanged (Reservation.spotId r) true (Reservation.user r)).

(** [completeReservation(_reservationId)] *)
Definition completeReservation (c : Ctx) (_reservationId : Z) : PS unit :=
  onlyOracle c;;
  validReservation _reservationId;;
  st <- get;;
  let r := reservation_at st _reservationId in
  require (status_eqb (Reservation.status r) Active) ReservationNonActive;;
  require (Reservation.actualStartTime r >? 0) ReservationNonCommencee;;
  require (Reservation.actualEndTime r =? 0) ReservationDejaTerminee;;
  let spot := spot_at st (Reservation.spotId r) in
  set_reservation _reservationId
    (Reservation.mk (Reservation.reservationId r) (Reservation.user r)
       (Reservation.spotId r) (Reservation.startTime r) (Reservation.endTime r)
       (Reservation.totalCost r) (Reservation.paidAmount r)
       Completed (Reservation.actualStartTime r) (now c));;
  actualDuration <- checked (now c - Reservation.actualStartTime r);;
  m <- checked (actualDuration * Spot.hourlyRate spot);;
  let actualCost := m / 3600 in
  f <- checked (actualCost * platformFeePercentage st);;
  let platformFee := f / 100 in
  spotEarnings <- checked (actualCost - platformFee);;
  te <- checked (Spot.totalEarnings spot + spotEarnings);;
  set_spot (Reservation.spotId r)
    (Spot.mk (Spot.spotId spot) (Spot.location spot) (Spot.hourlyRate spot)
       (Spot.isActive spot) false 0
       (Spot.reservationEnd spot) te (Spot.totalOccupations spot));;
  tp <- checked (totalPlatformEarnings st + platformFee);;
  set_totalPlatformEarnings tp;;
  refundAmount <-
    (if Reservation.totalCost r >? actualCost then
       a <- checked (Reservation.totalCost r - actualCost);;
       emit (Transfer (Reservation.user r) a);;
       ret a
     else ret 0);;
  emit (ReservationCompleted _reservationId (now c) actualCost refundAmount);;
  emit (SpotOccupancyChanged (Reservation.spotId r) false 0).

(** [cancelReservation(_reservationId)] *)
Definition cancelReservation (c : Ctx) (_reservationId : Z) : PS unit :=
  validReservation _reservationId;;
  st <- get;;
  let r := reservation_at st _reservationId in
  require (Reservation.user r =? sender c) PasAutorise;;
  require (status_eqb (Reservation.status r) Active) ReservationNonActive;;
  require (Reservation.actualStartTime r =? 0) AnnulationApresDebut;;
  require (now c <? Reservation.startTime r) TropTardPourAnnuler;;
  set_reservation _reservationId
    (Reservation.mk (Reservation.reservationId r) (Reservation.user r)
       (Reservation.spotId r) (Reservation.startTime r) (Reservation.endTime r)
       (Reservation.totalCost r) (Reservation.paidAmount r)
       Cancelled (Reservation.actualStartTime r) (Reservation.actualEndTime r));;
  let spot := spot_at st (Reservation.spotId r) in
  set_spot (Reservation.spotId r)
    (Spot.mk (Spot.spotId spot) (Spot.location spot) (Spot.hourlyRate spot)
       (Spot.isActive spot) (Spot.isOccupied spot) (Spot.currentUser spot)
       0 (Spot.totalEarnings spot) (Spot.totalOccupations spot));;
  f <- checked (Reservation.totalCost r * 5);;
  let cancellationFee := f / 100 in
  refundAmount <- checked (Reservation.totalCost r - cancellationFee);;
  tp <- checked (totalPlatformEarnings st + cancellationFee);;
  set_totalPlatformEarnings tp;;
  emit (Transfer (sender c) refundAmount);;
  emit (ReservationCancelled _reservationId refundAmount).

(** Administration. *)
Definition updatePlatformFee (c : Ctx) (_newFeePercentage : Z) : PS unit :=
  onlyOwner c;;
  require (_newFeePercentage <=? 20) FraisMaximum;;
  set_platformFeePercentage _newFeePercentage;;
  emit (PlatformFeeUpdated _newFeePercentage).

Definition updateOracle (c : Ctx) (_newOracle : Z) : PS unit :=
  onlyOwner c;;
  require (negb (_newOracle =? 0)) AdresseOracleInvalide;;
  set_oracleAddress _newOracle;;
  emit (OracleUpdated _newOracle).

Definition withdrawPlatformEarnings (c : Ctx) : PS unit :=
  onlyOwner c;;
  st <- get;;
  let amount := totalPlatformEarnings st in
  set_totalPlatformEarnings 0;;
  emit (Transfer (owner st) amount).

Definition pause (c : Ctx) : PS unit :=
  onlyOwner c;; whenNotPaused;; set_paused true;; emit (Paused (sender c)).

Definition unpause (c : Ctx) : PS unit :=
  onlyOwner c;; whenPaused;; set_paused false;; emit (Unpaused (sender c)).

(** Inherited from [Ownable]. *)
Definition transferOwnership (c : Ctx) (newOwner : Z) : PS unit :=
  onlyOwner c;;
  require (negb (newOwner =? 0)) OwnableInvalidOwner;;
  st <- get;;
  set_owner newOwner;;
  emit (OwnershipTransferred (owner st) newOwner).

Definition renounceOwnership (c : Ctx) : PS unit :=
  onlyOwner c;;
  st <- get;;
  set_owner 0;;
  emit (OwnershipTransferred (owner st) 0).

(** The state-changing external entry points. *)
Inductive Call :=
  | CreateParkingSpot (location : string) (hourlyRate : Z)
  | ReserveSpot (spotId startTime endTime : Z)
  | StartReservation (reservationId : Z)
  | CompleteReservation (reservationId : Z)
  | CancelReservation (reservationId : Z)
  | UpdatePlatformFee (fee : Z)
  | UpdateOracle (oracle : Z)
  | WithdrawPlatformEarnings
  | Pause
  | Unpause
  | TransferOwnership (newOwner : Z)
  | RenounceOwnership.

Definition dispatch (c : Ctx) (call : Call) : PS unit :=
  match call with
  | CreateParkingSpot l r => createParkingSpot c l r
  | ReserveSpot s a b => reserveSpot c s a b
  | StartReservation i => startReservation c i
  | CompleteReservation i => completeReservation c i
  | CancelReservation i => cancelReservation c i
  | UpdatePlatformFee f => updatePlatformFee c f
  | UpdateOracle o => updateOracle c o
  | WithdrawPlatformEarnings => withdrawPlatformEarnings c
  | Pause => pause c
  | Unpause => unpause c
  | TransferOwnership o => transferOwnership c o
  | RenounceOwnership => renounceOwnership c
  end.

(** [constructor(_oracleAddress)] run by [deployer]. *)
Definition init (deployer _oracleAddress : Z) : State :=
  mkState ∅ ∅ ∅ ∅ 1 1 10 0 _oracleAddress deployer false.

(** One transaction. *)
Definition step (c : Ctx) (call : Call) (st : State) : State :=
  exec (dispatch c call) st.

(** Run a list of transactions from a state. *)
Fixpoint run (txs : list (Ctx * Call)) (st : State) : State :=
  match txs with
  | [] => st
  | (c, call) :: rest => run rest (step c call st)
  end.
End ParkingSystem.

(** ** Contract [ParkingOracle] (src/blockchain/contracts/ParkingOracle.sol) *)
Module ParkingOracle.

(** [struct SensorData] *)
Module SensorData.
Record t := mk {
  spotId : Z;
  isOccupied : bool;
  confidence : Z;
  timestamp : Z;
  sensorType : string;
  dataHash : Z
}.
Definition zero : t := mk 0 false 0 0 "" 0.
End SensorData.

(** [struct OracleNode] *)
Module OracleNode.
Record t := mk {
  nodeAddress : Z;
  isActive : bool;
  reputation : Z;
  totalUpdates : Z;
  lastUpdate : Z;
  nodeId : string
}.
Definition zero : t := mk 0 false 0 0 0 "".
End OracleNode.

Record State := mkState {
  oracleNodes : gmap Z OracleNode.t;
  latestSensorData : gmap Z SensorData.t;
  sensorHistory : gmap Z (list SensorData.t);
  processedDataHashes : gmap Z bool;
  activeOracles : list Z;
  parkingSystemContract : Z;
  owner : Z;
  paused : bool
}.

Inductive Event :=
  | OracleNodeAdded (nodeAddress : Z) (nodeId : string)
  | OracleNodeRemoved (nodeAddress : Z)
  | OracleNodeUpdated (nodeAddress : Z) (isActive : bool) (reputation : Z)
  | SensorDataUpdated (spotId : Z) (isOccupied : bool) (confidence : Z)
      (oracle : Z) (sensorType : string)
  | ParkingSystemUpdated (newContract : Z)
  | DataValidationFailed (oracle spotId : Z) (reason : string)
  | Paused (account : Z)
  | Unpaused (account : Z)
  | OwnershipTransferred (previousOwner newOwner : Z).

(** [msg.sender] and [block.timestamp]. *)
Record Ctx := mkCtx { sender : Z; now : Z }.

Abbreviation PO := (M State Event).

Definition MIN_CONFIDENCE : Z := 70.
Definition MAX_HISTORY_SIZE : Z := 100.
Definition UPDATE_COOLDOWN : Z := 30.

Definition node_at (st : State) (a : Z) : OracleNode.t :=
  default OracleNode.zero (oracleNodes st !! a).
Definition latest_at (st : State) (k : Z) : SensorData.t :=
  default SensorData.zero (latestSensorData st !! k).
Definition history_at (st : State) (k : Z) : list SensorData.t :=
  default [] (sensorHistory st !! k).
Definition processed (st : State) (h : Z) : bool :=
  default false (processedDataHashes st !! h).

Definition modify (f : State -> State) : PO unit := st <- get;; put (f st).

Definition with_node (a : Z) (n : OracleNode.t) (st : State) : State :=
  mkState (<[a := n]> (oracleNodes st)) (latestSensorData st)
    (sensorHistory st) (processedDataHashes st) (activeOracles st)
    (parkingSystemContract st) (owner st) (paused st).
Definition with_latest (k : Z) (d : SensorData.t) (st : State) : State :=
  mkState (oracleNodes st) (<[k := d]> (latestSensorData st))
    (sensorHistory st) (processedDataHashes st) (activeOracles st)
    (parkingSystemContract st) (owner st) (paused st).
Definition with_history (k : Z) (h : list SensorData.t) (st : State) : State :=
  mkState (oracleNodes st) (latestSensorData st)
    (<[k := h]> (sensorHistory st)) (processedDataHashes st) (activeOracles st)
    (parkingSystemContract st) (owner st) (paused st).
Definition with_processed (h : Z) (b : bool) (st : State) : State :=
  mkState (oracleNodes st) (latestSensorData st)
    (sensorHistory st) (<[h := b]> (processedDataHashes st)) (activeOracles st)
    (parkingSystemContract st) (owner st) (paused st).
Definition with_activeOracles (l : list Z) (st : State) : State :=
  mkState (oracleNodes st) (latestSensorData st)
    (sensorHistory st) (processedDataHashes st) l
    (parkingSystemContract st) (owner st) (paused st).
Definition with_parkingSystemContract (a : Z) (st : State) : State :=
  mkState (oracleNodes st) (latestSensorData st)
    (sensorHistory st) (processedDataHashes st) (activeOracles st)
    a (owner st) (paused st).
Definition with_owner (a : Z) (st : State) : State :=
  mkState (oracleNodes st) (latestSensorData st)
    (sensorHistory st) (processedDataHashes st) (activeOracles st)
    (parkingSystemContract st) a (paused st).
Definition with_paused (b : bool) (st : State) : State :=
  mkState (oracleNodes st) (latestSensorData st)
    (sensorHistory st) (processedDataHashes st) (activeOracles st)
    (parkingSystemContract st) (owner st) b.

Definition set_reputation (n : OracleNode.t) (r : Z) : OracleNode.t :=
  OracleNode.mk (OracleNode.nodeAddress n) (OracleNode.isActive n) r
    (OracleNode.totalUpdates n) (OracleNode.lastUpdate n) (OracleNode.nodeId n).
Definition set_isActive (n : OracleNode.t) (b : bool) : OracleNode.t :=
  OracleNode.mk (OracleNode.nodeAddress n) b (OracleNode.reputation n)
    (OracleNode.totalUpdates n) (OracleNode.lastUpdate n) (OracleNode.nodeId n).

(** Modifiers. *)
Definition onlyOwner (c : Ctx) : PO unit :=
  st <- get;; require (sender c =? owner st) OwnableUnauthorizedAccount.
Definition whenNotPaused : PO unit :=
  st <- get;; require (negb (paused st)) EnforcedPause.
Definition whenPaused : PO unit :=
  st <- get;; require (paused st) ExpectedPause.
Definition onlyAuthorizedOracle (c : Ctx) : PO unit :=
  st <- get;; require (OracleNode.isActive (node_at st (sender c))) OracleNonAutorise.
Definition validSpotId (_spotId : Z) : PO unit :=
  require (_spotId >? 0) IdPlaceInvalide.
Definition cooldownPassed (c : Ctx) (_spotId : Z) : PO unit :=
  st <- get;;
  t <- checked (SensorData.timestamp (latest_at st _spotId) + UPDATE_COOLDOWN);;
  require (now c >=? t) CooldownNonEcoule.

(** [_rewardOracle] *)
Definition _rewardOracle (_oracle : Z) : PO unit :=
  st <- get;;
  let oracle := node_at st _oracle in
  if OracleNode.reputation oracle <? 1000 then
    r <- checked (OracleNode.reputation oracle + 1);;
    modify (with_node _oracle (set_reputation oracle r))
  else ret tt.

(** [_penalizeOracle] *)
Definition _penalizeOracle (_oracle : Z) : PO unit :=
  st <- get;;
  let oracle := node_at st _oracle in
  (if OracleNode.reputation oracle >? 10 then
     r <- checked (OracleNode.reputation oracle - 10);;
     modify (with_node _oracle (set_reputation oracle r))
   else ret tt);;
  st1 <- get;;
  let oracle1 := node_at st1 _oracle in
  if OracleNode.reputation oracle1 <? 100 then
    modify (with_node _oracle (set_isActive oracle1 false));;
    emit (OracleNodeUpdated _oracle false (OracleNode.reputation oracle1))
  else ret tt.

(** [_validateSensorData] (a [view] function). *)
Definition _validateSensorData (c : Ctx) (_spotId : Z) (_isOccupied : bool)
    (_confidence : Z) (_sensorType : string) : PO bool :=
  if (_confidence <? MIN_CONFIDENCE) || (_confidence >? 100) then ret false
  else
    st <- get;;
    let lastData := latest_at st _spotId in
    if SensorData.timestamp lastData >? 0 then
      if negb (Bool.eqb (SensorData.isOccupied lastData) _isOccupied)
         && (_confidence <? 80) then ret false
      else
        d <- checked (now c - SensorData.timestamp lastData);;
        if d <? UPDATE_COOLDOWN then ret false else ret true
    else ret true.

(** [_shouldNotifyParkingSystem] (a [view] function). *)
Definition _shouldNotifyParkingSystem (_spotId : Z) (_isOccupied : bool)
    : PO bool :=
  st <- get;;
  let lastData := latest_at st _spotId in
  ret ((SensorData.timestamp lastData =? 0)
       || negb (Bool.eqb (SensorData.isOccupied lastData) _isOccupied)).

(** [_notifyParkingSystem]: its body is a comment in the source. *)
Definition _notifyParkingSystem (_spotId : Z) (_isOccupied : bool) : PO unit :=
  ret tt.

(** The eviction loop of [updateSensorData]:
    [for (i = 0; i < h.length - MAX_HISTORY_SIZE; i++) h[i] = h[i + 1];]
    [fuel] bounds the iterations (the loop runs fewer than [length h] times). *)
Fixpoint shift_loop (fuel : nat) (i : nat) (h : list SensorData.t)
    : option (list SensorData.t) :=
  match fuel with
  | O => Some h
  | S fuel' =>
      if Z.of_nat i <? Z.of_nat (length h) - MAX_HISTORY_SIZE then
        match h !! (i + 1)%nat with
        | Some x => shift_loop fuel' (S i) (<[i := x]> h)
        | None => None                      (* index out of bounds: Panic *)
        end
      else Some h
  end.

(** [sensorHistory[_spotId].push(newData)] followed by the eviction block. *)
Definition push_history (h : list SensorData.t) (newData : SensorData.t)
    : PO (list SensorData.t) :=
  let h1 := h ++ [newData] in
  if Z.of_nat (length h1) >? MAX_HISTORY_SIZE then
    match shift_loop (length h1) 0 h1 with
    | Some h2 => ret (removelast h2)            (* [.pop()] *)
    | None => fun _ => inl Panic
    end
  else ret h1.

(** [updateSensorData(_spotId, _isOccupied, _confidence, _sensorType, _dataHash)] *)
Definition updateSensorData (c : Ctx) (_spotId : Z) (_isOccupied : bool)
    (_confidence : Z) (_sensorType : string) (_dataHash : Z) : PO unit :=
  onlyAuthorizedOracle c;;
  whenNotPaused;;
  validSpotId _spotId;;
  cooldownPassed c _spotId;;
  require (_confidence >=? MIN_CONFIDENCE) ConfianceInsuffisante;;
  st0 <- get;;
  require (negb (processed st0 _dataHash)) DonneesDejaTraitees;;
  require (Z.of_nat (String.length _sensorType) >? 0) TypeCapteurRequis;;
  ok <- _validateSensorData c _spotId _isOccupied _confidence _sensorType;;
  if negb ok then
    emit (DataValidationFailed (sender c) _spotId "Validation échouée");;
    _penalizeOracle (sender c)
  else
    let newData := SensorData.mk _spotId _isOccupied _confidence (now c)
                     _sensorType _dataHash in
    modify (with_latest _spotId newData);;
    modify (with_processed _dataHash true);;
    st1 <- get;;
    h <- push_history (history_at st1 _spotId) newData;;
    modify (with_history _spotId h);;
    st2 <- get;;
    let oracle := node_at st2 (sender c) in
    u <- checked (OracleNode.totalUpdates oracle + 1);;
    modify (with_node (sender c)
      (OracleNode.mk (OracleNode.nodeAddress oracle) (OracleNode.isActive oracle)
         (OracleNode.reputation oracle) u (now c) (OracleNode.nodeId oracle)));;
    _rewardOracle (sender c);;
    notify <- _shouldNotifyParkingSystem _spotId _isOccupied;;
    (if notify then _notifyParkingSystem _spotId _isOccupied else ret tt);;
    emit (SensorDataUpdated _spotId _isOccupied _confidence (sender c) _sensorType).

(** [addOracleNode(_nodeAddress, _nodeId)] *)
Definition addOracleNode (c : Ctx) (_nodeAddress : Z) (_nodeId : string)
    : PO unit :=
  onlyOwner c;;
  require (negb (_nodeAddress =? 0)) AdresseInvalide;;
  st <- get;;
  require (negb (OracleNode.isActive (node_at st _nodeAddress))) OracleDejaActif;;
  modify (with_node _nodeAddress (OracleNode.mk _nodeAddress true 500 0 0 _nodeId));;
  modify (with_activeOracles (activeOracles st ++ [_nodeAddress]));;
  emit (OracleNodeAdded _nodeAddress _nodeId).

(** The removal loop of [removeOracleNode]: the first [i] with
    [activeOracles[i] == a] gets the last element, then [pop()]. *)
Fixpoint first_index (l : list Z) (a : Z) : option nat :=
  match l with
  | [] => None
  | x :: r => if x =? a then Some 0%nat else S <$> first_index r a
  end.

Definition remove_active (l : list Z) (a : Z) : list Z :=
  match first_index l a with
  | Some i => removelast (<[i := List.last l 0]> l)
  | None => l
  end.

(** [removeOracleNode(_nodeAddress)] *)
Definition removeOracleNode (c : Ctx) (_nodeAddress : Z) : PO unit :=
  onlyOwner c;;
  st <- get;;
  require (OracleNode.isActive (node_at st _nodeAddress)) OracleNonActif;;
  modify (with_node _nodeAddress (set_isActive (node_at st _nodeAddress) false));;
  modify (with_activeOracles (remove_active (activeOracles st) _nodeAddress));;
  emit (OracleNodeRemoved _nodeAddress).

(** [updateParkingSystemContract(_newContract)] *)
Definition updateParkingSystemContract (c : Ctx) (_newContract : Z) : PO unit :=
  onlyOwner c;;
  require (negb (_newContract =? 0)) AdresseInvalide;;
  modify (with_parkingSystemContract _newContract);;
  emit (ParkingSystemUpdated _newContract).

(** [updateOracleReputation(_oracle, _newReputation)] *)
Definition updateOracleReputation (c : Ctx) (_oracle _newReputation : Z)
    : PO unit :=
  onlyOwner c;;
  require (_newReputation <=? 1000) ReputationMaximale;;
  st <- get;;
  require (negb (OracleNode.nodeAddress (node_at st _oracle) =? 0)) OracleInexistant;;
  modify (with_node _oracle (set_reputation (node_at st _oracle) _newReputation));;
  emit (OracleNodeUpdated _oracle (OracleNode.isActive (node_at st _oracle))
          _newReputation).

Definition pause (c : Ctx) : PO unit :=
  onlyOwner c;; whenNotPaused;; modify (with_paused true);; emit (Paused (sender c)).

Definition unpause (c : Ctx) : PO unit :=
  onlyOwner c;; whenPaused;; modify (with_paused false);; emit (Unpaused (sender c)).

Definition transferOwnership (c : Ctx) (newOwner : Z) : PO unit :=
  onlyOwner c;;
  require (negb (newOwner =? 0)) OwnableInvalidOwner;;
  st <- get;;
  modify (with_owner newOwner);;
  emit (OwnershipTransferred (owner st) newOwner).

Definition renounceOwnership (c : Ctx) : PO unit :=
  onlyOwner c;;
  st <- get;;
  modify (with_owner 0);;
  emit (OwnershipTransferred (owner st) 0).

Inductive Call :=
  | AddOracleNode (nodeAddress : Z) (nodeId : string)
  | RemoveOracleNode (nodeAddress : Z)
  | UpdateSensorData (spotId : Z) (isOccupied : bool) (confidence : Z)
      (sensorType : string) (dataHash : Z)
  | UpdateParkingSystemContract (newContract : Z)
  | UpdateOracleReputation (oracle newReputation : Z)
  | Pause
  | Unpause
  | TransferOwnership (newOwner : Z)
  | RenounceOwnership.

Definition dispatch (c : Ctx) (call : Call) : PO unit :=
  match call with
  | AddOracleNode a n => addOracleNode c a n
  | RemoveOracleNode a => removeOracleNode c a
  | UpdateSensorData s o k t h => updateSensorData c s o k t h
  | UpdateParkingSystemContract a => updateParkingSystemContract c a
  | UpdateOracleReputation a r => updateOracleReputation c a r
  | Pause => pause c
  | Unpause => unpause c
  | TransferOwnership a => transferOwnership c a
  | RenounceOwnership => renounceOwnership c
  end.

(** [constructor(_parkingSystemContract)] run by [deployer]. *)
Definition init (deployer _parkingSystemContract : Z) : State :=
  mkState ∅ ∅ ∅ ∅ [] _parkingSystemContract deployer false.

Definition step (c : Ctx) (call : Call) (st : State) : State :=
  exec (dispatch c call) st.

Fixpoint run (txs : list (Ctx * Call)) (st : State) : State :=
  match txs with
  | [] => st
  | (c, call) :: rest => run rest (step c call st)
  end.

(** ABI ranges of the arguments: [address] is 160 bits, [uint256] and
    [bytes32] are 256 bits. *)
Definition addr (a : Z) : Prop := 0 <= a < 2 ^ 160.
Definition uint (x : Z) : Prop := 0 <= x <= UINT_MAX.

Definition wf_ctx (c : Ctx) : Prop := addr (sender c) /\ uint (now c).

Definition wf_call (call : Call) : Prop :=
  match call with
  | AddOracleNode a _ => addr a
  | RemoveOracleNode a => addr a
  | UpdateSensorData s _ k _ h => uint s /\ uint k /\ uint h
  | UpdateParkingSystemContract a => addr a
  | UpdateOracleReputation a r => addr a /\ uint r
  | TransferOwnership a => addr a
  | Pause | Unpause | RenounceOwnership => True
  end.

(** States reachable from a deployment by ABI-decodable transactions. *)
Inductive reachable : State -> Prop :=
  | reachable_init d p : addr d -> addr p -> reachable (init d p)
  | reachable_step st c call :
      reachable st -> wf_ctx c -> wf_call call -> reachable (step c call st).
End ParkingOracle.

(** ** Concrete transaction sequences of [ParkingOracle] *)
Module OracleTraces.
Import ParkingOracle.

(** The [n]-th reading of node 7 on spot 3: a free spot, confidence 90,
    hash [n], sent 40 s after the previous one. *)
Definition reading (n : nat) : Ctx * Call :=
  (mkCtx 7 (1000 + 40 * Z.of_nat n), UpdateSensorData 3 false 90 "ir" (Z.of_nat n)).

(** Owner 1 registers node 7, which then fills the history of spot 3. *)
Definition trace_full : list (Ctx * Call) :=
  (mkCtx 1 10, AddOracleNode 7 "n7") :: map reading (seq 1 100).

Definition st_full : State := run trace_full (init 1 99).

(** The 101st reading: the spot became occupied (confidence 95, hash 555). *)
Definition ctx101 : Ctx := mkCtx 7 5040.
Definition reading101 : SensorData.t := SensorData.mk 3 true 95 5040 "ir" 555.
(** Node 7 registered by owner 1 (reputation 500). *)
Definition st_added : State := step (mkCtx 1 10) (AddOracleNode 7 "n7") (init 1 99).

(** The owner lowers the reputation of node 7 to 105. *)
Definition st_low : State := step (mkCtx 1 20) (UpdateOracleReputation 7 105) st_added.

(** Node 7's first reading of spot 3 (free, hash 1) is accepted at time 1040. *)
Definition st_one : State :=
  step (mkCtx 7 1040) (UpdateSensorData 3 false 90 "ir" 1) st_added.
End OracleTraces.

(** ** Outcomes of [updateSensorData] named by the claims *)
Module OracleSpec.
Import ParkingOracle.

(** A soft rejection: the call succeeds, logs [DataValidationFailed] and then
    the events of the reporter's penalty, and stores no sensor data. *)
Definition soft_rejection (c : Ctx) (s : Z) (st : State)
    (r : Err + (unit * State * list Event)) : Prop :=
  exists st' evs,
    r = inr (tt, st', DataValidationFailed (sender c) s "Validation échouée" :: evs) /\
    _penalizeOracle (sender c) st = inr (tt, st', evs) /\
    latestSensorData st' = latestSensorData st /\
    sensorHistory st' = sensorHistory st /\
    processedDataHashes st' = processedDataHashes st.
End OracleSpec.

(** ** View functions and ABI-level transactions of [ParkingSystem] *)
Module ParkingSystemViews.
Import ParkingSystem.


(** [getReservation(_reservationId)] ([validReservation]) *)
Definition getReservation (_reservationId : Z) : PS Reservation.t :=
  validReservation _reservationId;;
  st <- get;;
  ret (reservation_at st _reservationId).

(** [getUserReservations(_user)] *)
Definition getUserReservations (_user : Z) : PS (list Z) :=
  st <- get;;
  ret (default [] (userReservations st !! _user)).

(** The entry points guarded by [onlyOwner]. *)
Definition owner_only (call : Call) : bool :=
  match call with
  | CreateParkingSpot _ _ | UpdatePlatformFee _ | UpdateOracle _
  | WithdrawPlatformEarnings | Pause | Unpause | TransferOwnership _
  | RenounceOwnership => true
  | ReserveSpot _ _ _ | StartReservation _ | CompleteReservation _
  | CancelReservation _ => false
  end.

(** ABI ranges of the arguments ([address]: 160 bits, [uint256]: 256 bits). *)
Definition wf_ctx (c : Ctx) : Prop :=
  ParkingOracle.addr (sender c) /\ ParkingOracle.uint (now c) /\
  ParkingOracle.uint (value c).

Definition wf_call (call : Call) : Prop :=
  match call with
  | CreateParkingSpot _ r => ParkingOracle.uint r
  | ReserveSpot s a b =>
      ParkingOracle.uint s /\ ParkingOracle.uint a /\ ParkingOracle.uint b
  | StartReservation i | CompleteReservation i | CancelReservation i =>
      ParkingOracle.uint i
  | UpdatePlatformFee f => ParkingOracle.uint f
  | UpdateOracle a | TransferOwnership a => ParkingOracle.addr a
  | WithdrawPlatformEarnings | Pause | Unpause | RenounceOwnership => True
  end.

(** The terms of a spot fixed at its creation. *)
Definition spot_terms (sp : Spot.t) : Z * string * Z * bool :=
  (Spot.spotId sp, Spot.location sp, Spot.hourlyRate sp, Spot.isActive sp).

(** States reachable from a deployment by ABI-decodable transactions. *)
Inductive abi_reachable : State -> Prop :=
  | abi_reachable_init d o :
      ParkingOracle.addr d -> ParkingOracle.addr o -> abi_reachable (init d o)
  | abi_reachable_step st c call :
      abi_reachable st -> wf_ctx c -> wf_call call ->
      abi_reachable (step c call st).
End ParkingSystemViews.

(** ** [ParkingSystem] with its ether balance.

    The storage model above logs [payable(a).transfer(v)] as a [Transfer]
    event and lets it succeed. Here the contract's balance [bal] is added:
    - a non-payable entry point (all but [reserveSpot]) called with ether
      reverts before its body runs (Solidity's [callvalue] check);
    - [msg.value] is credited to the balance before the body runs;
    - [transfer(v)] reverts when the balance is below [v]. Every entry point
      makes at most one [transfer], and only [emit]s follow it, so the call
      reverts with the body's reason when the body fails and otherwise with
      [TransferFailed] exactly when the amount transferred exceeds the
      balance;
    - a reverted call leaves storage and balance unchanged ([ledger_step]).
    Ether sent to [receive()] only raises the balance. *)
Module ParkingSystemLedger.
Import ParkingSystem.

Inductive TxError :=
  | Reverted (e : Err)   (* the body reverted with [e] *)
  | NotPayable           (* ether sent to a non-payable entry point *)
  | TransferFailed.      (* [transfer] with insufficient balance *)

(** Total amount sent by the [Transfer] entries of a log. *)
Fixpoint transferred (evs : list Event) : Z :=
  match evs with
  | [] => 0
  | Transfer _ v :: rest => v + transferred rest
  | _ :: rest => transferred rest
  end.

Definition payable (call : Call) : bool :=
  match call with
  | ReserveSpot _ _ _ => true
  | _ => false
  end.

(** One external call on storage [st] with balance [bal]. *)
Definition transact (c : Ctx) (call : Call) (st : State) (bal : Z)
    : TxError + (State * Z * list Event) :=
  if negb (payable call) && negb (value c =? 0) then inl NotPayable
  else
    match dispatch c call st with
    | inl e => inl (Reverted e)
    | inr (_, st', evs) =>
        let b := bal + value c in
        if transferred evs <=? b then inr (st', b - transferred evs, evs)
        else inl TransferFailed
    end.

Definition ledger_step (c : Ctx) (call : Call) (sb : State * Z) : State * Z :=
  match transact c call sb.1 sb.2 with
  | inl _ => sb
  | inr (st', b', _) => (st', b')
  end.

Fixpoint ledger_run (txs : list (Ctx * Call)) (sb : State * Z) : State * Z :=
  match txs with
  | [] => sb
  | (c, call) :: rest => ledger_run rest (ledger_step c call sb)
  end.

(** A booking of spot 1 (rate 3600) paid 3600 and completed 100 hours late,
    then a day-long booking paid 86400 ([overstay_then_booking]); the owner's
    withdrawal of the 36000 fee follows in [overstay_withdrawn]. *)
Definition overstay_trace : list (Ctx * Call) :=
  [(mkCtx 1 100 0, CreateParkingSpot "A1" 3600);
   (mkCtx 5 100 3600, ReserveSpot 1 4000 7600);
   (mkCtx 2 4000 0, StartReservation 1);
   (mkCtx 2 364000 0, CompleteReservation 1)].

Definition overstay_then_booking : list (Ctx * Call) :=
  overstay_trace ++ [(mkCtx 6 364100 86400, ReserveSpot 1 400000 486400)].

Definition overstay_withdrawn : list (Ctx * Call) :=
  overstay_then_booking ++ [(mkCtx 1 364150 0, WithdrawPlatformEarnings)].
End ParkingSystemLedger.

(** ** View functions of [ParkingOracle] *)
Module ParkingOracleViews.
Import ParkingOracle.

(** [getLatestSensorData(_spotId)] *)
Definition getLatestSensorData (_spotId : Z) : PO SensorData.t :=
  st <- get;; ret (latest_at st _spotId).

(** [getSensorHistory(_spotId)] *)
Definition getSensorHistory (_spotId : Z) : PO (list SensorData.t) :=
  st <- get;; ret (history_at st _spotId).

(** [getOracleNode(_oracle)] *)
Definition getOracleNode (_oracle : Z) : PO OracleNode.t :=
  st <- get;; ret (node_at st _oracle).

(** [getActiveOracles()] *)
Definition getActiveOracles : PO (list Z) :=
  st <- get;; ret (activeOracles st).

(** The entry points guarded by [onlyOwner]. *)
Definition owner_only (call : Call) : bool :=
  match call with
  | UpdateSensorData _ _ _ _ _ => false
  | _ => true
  end.
End ParkingOracleViews.

(** ** Bookkeeping of [ParkingSystem]: the money the contract has booked. *)
Module Accounting.
Import ParkingSystem.

(** The [actualCost] that [completeReservation] computes for [r]. *)
Definition actual_cost (st : State) (r : Reservation.t) : Z :=
  (Reservation.actualEndTime r - Reservation.actualStartTime r)
  * Spot.hourlyRate (spot_at st (Reservation.spotId r)) / 3600.

(** The [cancellationFee] that [cancelReservation] computes for [r]. *)
Definition cancellation_fee (r : Reservation.t) : Z :=
  Reservation.totalCost r * 5 / 100.

(** [sum(spot.totalEarnings)] *)
Definition earnings_sum (st : State) : Z :=
  sumZ (fun _ sp => Spot.totalEarnings sp) (parkingSpots st).

(** [sum(actualCost of Completed reservations)] *)
Definition completed_cost_sum (st : State) : Z :=
  sumZ (fun _ r => if status_eqb (Reservation.status r) Completed
                   then actual_cost st r else 0) (reservations st).

(** Sum of the cancellation fees of the Cancelled reservations. *)
Definition cancellation_fee_sum (st : State) : Z :=
  sumZ (fun _ r => if status_eqb (Reservation.status r) Cancelled
                   then cancellation_fee r else 0) (reservations st).

(** Amount sent to the owner by a [withdrawPlatformEarnings] transaction. *)
Definition withdrawn (call : Call) (st st' : State) : Z :=
  match call with
  | WithdrawPlatformEarnings => totalPlatformEarnings st - totalPlatformEarnings st'
  | _ => 0
  end.

(** [reach st w]: [st] is reachable from a deployment, and the owner has
    withdrawn [w] in total on the way. *)
Inductive reach : State -> Z -> Prop :=
  | reach_init d o : reach (init d o) 0
  | reach_step st w c call :
      reach st w -> reach (step c call st) (w + withdrawn call st (step c call st)).

(** Plain reachability. *)
Definition reachable (st : State) : Prop := exists w, reach st w.
End Accounting.

(** * Proofs *)

(** ** Sums over storage maps *)
Section SumZ.
Context {K V : Type} `{Countable K}.
Implicit Types (f g : K -> V -> Z) (m : gmap K V).

Lemma sumZ_empty f : sumZ f ∅ = 0.
Proof. unfold sumZ. by rewrite map_fold_empty. Qed.

Lemma sumZ_insert_fresh f m i x :
  m !! i = None -> sumZ f (<[i:=x]> m) = f i x + sumZ f m.
Proof.
  intros Hi. unfold sumZ.
  rewrite (map_fold_insert_L (fun k v acc => f k v + acc)); [done| |done].
  intros; lia.
Qed.

Lemma sumZ_insert f m i x : sumZ f (<[i:=x]> m) = f i x + sumZ f (delete i m).
Proof.
  rewrite <- insert_delete_eq. apply sumZ_insert_fresh, lookup_delete_eq.
Qed.

(** The entry at [i] (if any) plus the rest. *)
Lemma sumZ_split f m i :
  sumZ f m = (match m !! i with Some v => f i v | None => 0 end)
             + sumZ f (delete i m).
Proof.
  destruct (m !! i) as [v|] eqn:Hi.
  - unfold sumZ.
    rewrite (map_fold_delete_L (fun k v acc => f k v + acc) 0 i v m);
      [done| |done].
    intros; lia.
  - by rewrite delete_id.
Qed.

Lemma sumZ_ext f g m :
  (forall k v, m !! k = Some v -> f k v = g k v) -> sumZ f m = sumZ g m.
Proof.
  induction m as [|i x m Hi IH] using map_ind; intros Hfg.
  - by rewrite !sumZ_empty.
  - rewrite !sumZ_insert_fresh by done.
    rewrite (Hfg i x) by (by rewrite lookup_insert_eq).
    f_equal. apply IH. intros k v Hk. apply Hfg.
    rewrite lookup_insert_ne; [done|]. intros ->. congruence.
Qed.

(** Overwriting the entry at [i], read through the default [d]. *)
Lemma sumZ_overwrite f m i x d :
  f i d = 0 ->
  sumZ f (<[i:=x]> m) = sumZ f m - f i (default d (m !! i)) + f i x.
Proof.
  intros Hd. rewrite sumZ_insert, (sumZ_split f m i).
  destruct (m !! i); simpl; lia.
Qed.
End SumZ.

(** ** Symbolic execution of a successful transaction *)

(** [sym H] runs the monadic code in [H : code st = inr (...)], splitting on
    every [require] and [if]; the reverting branches are discarded. *)
Ltac sym H :=
  cbv beta iota zeta delta [bind get put require checked emit ret] in H;
  repeat (match type of H with
          | context [if ?b then _ else _] =>
              let E := fresh "E" in destruct b eqn:E
          end; cbv beta iota zeta in H);
  try discriminate H.

(** ** [ParkingSystem]: bookkeeping invariant *)
Module ParkingSystemProofs.
Import ParkingSystem Accounting.

Record inv (st : State) (w : Z) : Prop := {
  inv_next_spot : 1 <= nextSpotId st;
  inv_next_res : 1 <= nextReservationId st;
  inv_spots_dom : forall k sp, parkingSpots st !! k = Some sp -> k < nextSpotId st;
  inv_exists : forall k, spot_exists st k = true -> k < nextSpotId st;
  inv_res_dom : forall k r, reservations st !! k = Some r -> k < nextReservationId st;
  inv_res_spot : forall k r, reservations st !! k = Some r ->
                   Reservation.spotId r < nextSpotId st;
  inv_balance : earnings_sum st + totalPlatformEarnings st + w
                = completed_cost_sum st + cancellation_fee_sum st
}.

Lemma inv_init d o : inv (init d o) 0.
Proof.
  constructor; simpl; try lia.
  - intros k sp Hk. by rewrite lookup_empty in Hk.
  - intros k Hk. unfold spot_exists in Hk. simpl in Hk.
    by rewrite lookup_empty in Hk.
  - intros k r Hk. by rewrite lookup_empty in Hk.
  - intros k r Hk. by rewrite lookup_empty in Hk.
  - unfold earnings_sum, completed_cost_sum, cancellation_fee_sum. simpl.
    rewrite !sumZ_empty. lia.
Qed.

Lemma actual_cost_rates st st' r :
  (forall j, Spot.hourlyRate (spot_at st' j) = Spot.hourlyRate (spot_at st j)) ->
  actual_cost st' r = actual_cost st r.
Proof. intros Hr. unfold actual_cost. by rewrite Hr. Qed.

Lemma completed_sum_rates st st' (m : gmap Z Reservation.t) :
  (forall j, Spot.hourlyRate (spot_at st' j) = Spot.hourlyRate (spot_at st j)) ->
  sumZ (fun _ r => if status_eqb (Reservation.status r) Completed
                   then actual_cost st' r else 0) m
  = sumZ (fun _ r => if status_eqb (Reservation.status r) Completed
                     then actual_cost st r else 0) m.
Proof.
  intros Hr. apply sumZ_ext. intros k v _. by rewrite (actual_cost_rates st st').
Qed.

(** Writing a spot with the same rate keeps every rate. *)
Lemma rate_insert (ps : gmap Z Spot.t) k x j :
  Spot.hourlyRate x = Spot.hourlyRate (default Spot.zero (ps !! k)) ->
  Spot.hourlyRate (default Spot.zero (<[k:=x]> ps !! j))
  = Spot.hourlyRate (default Spot.zero (ps !! j)).
Proof.
  intros Hx. rewrite lookup_insert. case_decide; subst; simpl; auto.
Qed.

Lemma lookup_insert_Some_cases {A} (m : gmap Z A) i x k v (P : Z -> A -> Prop) :
  P i x -> (forall k v, m !! k = Some v -> P k v) ->
  <[i:=x]> m !! k = Some v -> P k v.
Proof.
  intros Hi Hm Hk. apply lookup_insert_Some in Hk as [[<- <-]|[_ Hk]]; auto.
Qed.

(** Per-reservation contributions to the two sums. *)
Definition ccost (st : State) (r : Reservation.t) : Z :=
  if status_eqb (Reservation.status r) Completed then actual_cost st r else 0.
Definition cfee (r : Reservation.t) : Z :=
  if status_eqb (Reservation.status r) Cancelled then cancellation_fee r else 0.

Lemma status_eqb_eq a b : status_eqb a b = true <-> a = b.
Proof. destruct a, b; simpl; split; congruence. Qed.

(** A transaction that rewrites one spot (keeping its rate) and one
    reservation preserves [inv] when the booked amounts balance. *)
Lemma inv_overwrite st w st' k x rid r' :
  inv st w ->
  parkingSpots st' = <[k:=x]> (parkingSpots st) ->
  reservations st' = <[rid:=r']> (reservations st) ->
  nextSpotId st' = nextSpotId st ->
  nextReservationId st <= nextReservationId st' ->
  rid < nextReservationId st' ->
  spotExists st' = spotExists st ->
  k < nextSpotId st ->
  Reservation.spotId r' < nextSpotId st ->
  Spot.hourlyRate x = Spot.hourlyRate (spot_at st k) ->
  Spot.totalEarnings x - Spot.totalEarnings (spot_at st k)
    + (totalPlatformEarnings st' - totalPlatformEarnings st)
  = ccost st r' - ccost st (reservation_at st rid)
    + (cfee r' - cfee (reservation_at st rid)) ->
  inv st' w.
Proof.
  intros Hinv Hps Hres Hns Hnr Hrid Hex Hk Hr' Hrate Hbal.
  assert (Hrates : forall j, Spot.hourlyRate (spot_at st' j)
                             = Spot.hourlyRate (spot_at st j))
    by (intros j; unfold spot_at; rewrite Hps; by apply rate_insert).
  constructor.
  - rewrite Hns. apply (inv_next_spot _ _ Hinv).
  - pose proof (inv_next_res _ _ Hinv). lia.
  - intros j sp Hj. rewrite Hns. rewrite Hps in Hj.
    revert Hj. apply (lookup_insert_Some_cases _ _ _ _ _
                        (fun j _ => j < nextSpotId st)); [done|].
    apply (inv_spots_dom _ _ Hinv).
  - intros j Hj. rewrite Hns. unfold spot_exists in Hj. rewrite Hex in Hj.
    by apply (inv_exists _ _ Hinv).
  - intros j r Hj. rewrite Hres in Hj. revert Hj.
    apply (lookup_insert_Some_cases _ _ _ _ _
             (fun j _ => j < nextReservationId st')); [done|].
    intros j' r'' Hj'. pose proof (inv_res_dom _ _ Hinv _ _ Hj'). lia.
  - intros j r Hj. rewrite Hns. rewrite Hres in Hj. revert Hj.
    apply (lookup_insert_Some_cases _ _ _ _ _
             (fun _ r => Reservation.spotId r < nextSpotId st)); [done|].
    apply (inv_res_spot _ _ Hinv).
  - pose proof (inv_balance _ _ Hinv) as Hb.
    unfold earnings_sum, completed_cost_sum, cancellation_fee_sum in *.
    rewrite (completed_sum_rates st st') by done.
    rewrite Hps, Hres.
    rewrite (sumZ_overwrite _ _ k x Spot.zero) by reflexivity.
    rewrite (sumZ_overwrite _ _ rid r' Reservation.zero) by reflexivity.
    rewrite (sumZ_overwrite (fun _ r => if status_eqb (Reservation.status r) Cancelled
                   then cancellation_fee r else 0) _ rid r' Reservation.zero)
      by reflexivity.
    fold (spot_at st k) (reservation_at st rid).
    unfold ccost, cfee in Hbal. lia.
Qed.

Lemma res_spot_lt st w rid :
  inv st w -> Reservation.spotId (reservation_at st rid) < nextSpotId st.
Proof.
  intros Hinv. unfold reservation_at.
  destruct (reservations st !! rid) eqn:Hr; simpl.
  - eapply inv_res_spot; eauto.
  - pose proof (inv_next_spot _ _ Hinv). lia.
Qed.

Lemma active_contrib st r :
  status_eqb (Reservation.status r) Active = true -> ccost st r = 0 /\ cfee r = 0.
Proof.
  intros Ha. apply status_eqb_eq in Ha. unfold ccost, cfee. by rewrite Ha.
Qed.

Ltac zb := repeat match goal with
  | H : (_ =? _) = true |- _ => apply Z.eqb_eq in H
  | H : (_ <? _) = true |- _ => apply Z.ltb_lt in H
  | H : (_ >? _) = true |- _ => apply Z.gtb_lt in H
  | H : (_ >=? _) = true |- _ => apply Z.geb_le in H
  | H : (_ <=? _) = true |- _ => apply Z.leb_le in H
  | H : (_ && _) = true |- _ => apply andb_prop in H as [? ?]
  end.

Lemma inv_completeReservation st w c rid u st' evs :
  inv st w -> completeReservation c rid st = inr (u, st', evs) -> inv st' w.
Proof.
  intros Hinv H.
  unfold completeReservation, onlyOracle, validReservation, set_reservation,
    set_spot, set_totalPlatformEarnings in H.
  sym H; injection H as <- <- <-;
    pose proof (res_spot_lt st w rid Hinv);
    destruct (active_contrib st (reservation_at st rid) E1) as [Hc Hf];
    (eapply inv_overwrite; [exact Hinv|reflexivity..|simpl; lia|simpl; lia
       |reflexivity|done|done|reflexivity|]);
    simpl; rewrite Hc, Hf; unfold ccost, cfee; simpl;
    unfold actual_cost; simpl; zb; lia.
Qed.

Lemma inv_startReservation st w c rid u st' evs :
  inv st w -> startReservation c rid st = inr (u, st', evs) -> inv st' w.
Proof.
  intros Hinv H.
  unfold startReservation, onlyOracle, validReservation, set_reservation,
    set_spot in H.
  sym H; injection H as <- <- <-;
    pose proof (res_spot_lt st w rid Hinv);
    destruct (active_contrib st (reservation_at st rid) E1) as [Hc Hf];
    (eapply inv_overwrite; [exact Hinv|reflexivity..|simpl; lia|simpl; lia
       |reflexivity|done|done|reflexivity|]);
    simpl; rewrite Hc, Hf;
    destruct (active_contrib st (Reservation.mk (Reservation.reservationId (reservation_at st rid))
       (Reservation.user (reservation_at st rid)) (Reservation.spotId (reservation_at st rid))
       (Reservation.startTime (reservation_at st rid)) (Reservation.endTime (reservation_at st rid))
       (Reservation.totalCost (reservation_at st rid)) (Reservation.paidAmount (reservation_at st rid))
       (Reservation.status (reservation_at st rid)) (now c)
       (Reservation.actualEndTime (reservation_at st rid))) E1) as [Hc' Hf'];
    rewrite Hc', Hf'; lia.
Qed.

Lemma inv_cancelReservation st w c rid u st' evs :
  inv st w -> cancelReservation c rid st = inr (u, st', evs) -> inv st' w.
Proof.
  intros Hinv H.
  unfold cancelReservation, validReservation, set_reservation,
    set_spot, set_totalPlatformEarnings in H.
  sym H; injection H as <- <- <-;
    pose proof (res_spot_lt st w rid Hinv);
    destruct (active_contrib st (reservation_at st rid) E1) as [Hc Hf];
    (eapply inv_overwrite; [exact Hinv|reflexivity..|simpl; lia|simpl; lia
       |reflexivity|done|done|reflexivity|]);
    simpl; rewrite Hc, Hf; unfold ccost, cfee, cancellation_fee; simpl; lia.
Qed.

Lemma reservation_at_fresh st w :
  inv st w -> reservation_at st (nextReservationId st) = Reservation.zero.
Proof.
  intros Hinv. unfold reservation_at.
  destruct (reservations st !! nextReservationId st) eqn:Hr; [|done].
  apply (inv_res_dom _ _ Hinv) in Hr. lia.
Qed.

Lemma inv_reserveSpot st w c s a b u st' evs :
  inv st w -> reserveSpot c s a b st = inr (u, st', evs) -> inv st' w.
Proof.
  intros Hinv H.
  unfold reserveSpot, whenNotPaused, spotExistsModifier, set_nextReservationId,
    set_reservation, set_userReservations, set_spot in H.
  sym H; injection H as <- <- <-;
    pose proof (inv_exists _ _ Hinv s E0);
    pose proof (reservation_at_fresh st w Hinv) as Hz;
    (eapply inv_overwrite; [exact Hinv|reflexivity..|simpl; zb; lia|simpl; zb; lia
       |reflexivity|done|simpl; lia|reflexivity|]);
    simpl; rewrite Hz; unfold ccost, cfee; simpl; lia.
Qed.

(** Transactions that touch neither spots, reservations nor counters. *)
Lemma inv_frame st w st' w' :
  inv st w ->
  parkingSpots st' = parkingSpots st ->
  reservations st' = reservations st ->
  nextSpotId st' = nextSpotId st ->
  nextReservationId st' = nextReservationId st ->
  spotExists st' = spotExists st ->
  totalPlatformEarnings st' + w' = totalPlatformEarnings st + w ->
  inv st' w'.
Proof.
  intros Hinv Hps Hres Hns Hnr Hex Hp.
  assert (Hsp : forall j, spot_at st' j = spot_at st j)
    by (intros j; unfold spot_at; by rewrite Hps).
  destruct Hinv as [H1 H2 H3 H4 H5 H6 H7]. constructor.
  - lia.
  - lia.
  - rewrite Hps, Hns. done.
  - intros j. unfold spot_exists. rewrite Hex, Hns. apply H4.
  - rewrite Hres, Hnr. done.
  - rewrite Hres, Hns. done.
  - unfold earnings_sum, completed_cost_sum, cancellation_fee_sum in *.
    rewrite (completed_sum_rates st st') by (intros j; by rewrite Hsp).
    rewrite Hps, Hres. lia.
Qed.

Lemma completed_sum_entries st st' (m : gmap Z Reservation.t) :
  (forall k r, m !! k = Some r ->
     Spot.hourlyRate (spot_at st' (Reservation.spotId r))
     = Spot.hourlyRate (spot_at st (Reservation.spotId r))) ->
  sumZ (fun _ r => if status_eqb (Reservation.status r) Completed
                   then actual_cost st' r else 0) m
  = sumZ (fun _ r => if status_eqb (Reservation.status r) Completed
                     then actual_cost st r else 0) m.
Proof.
  intros Hr. apply sumZ_ext. intros k v Hk. unfold actual_cost.
  by rewrite (Hr k v Hk).
Qed.

Lemma inv_createParkingSpot st w c l r u st' evs :
  inv st w -> createParkingSpot c l r st = inr (u, st', evs) -> inv st' w.
Proof.
  intros Hinv H.
  unfold createParkingSpot, onlyOwner, set_nextSpotId, set_spot,
    set_spotExists in H.
  sym H; injection H as <- <- <-. zb.
  assert (Hfresh : parkingSpots st !! nextSpotId st = None).
  { destruct (parkingSpots st !! nextSpotId st) eqn:Hn; [|done].
    apply (inv_spots_dom _ _ Hinv) in Hn. lia. }
  destruct Hinv as [H1 H2 H3 H4 H5 H6 H7]. constructor; simpl.
  - lia.
  - lia.
  - intros j sp Hj. apply lookup_insert_Some in Hj as [[<- _]|[_ Hj]]; [lia|].
    apply H3 in Hj. lia.
  - intros j Hj. unfold spot_exists in Hj. simpl in Hj.
    rewrite lookup_insert in Hj. case_decide; [lia|]. apply H4 in Hj. lia.
  - done.
  - intros j rr Hj. apply H6 in Hj. lia.
  - unfold earnings_sum, completed_cost_sum, cancellation_fee_sum in *. simpl.
    rewrite sumZ_insert_fresh by done. simpl.
    rewrite (completed_sum_entries st); [lia|].
    intros j rr Hj. unfold spot_at. simpl.
    rewrite lookup_insert_ne; [done|]. apply H6 in Hj. lia.
Qed.

(** The reservation-independent transactions. *)
Ltac frame_tac Hinv :=
  (eapply inv_frame; [exact Hinv|reflexivity..|simpl; lia]).

Lemma inv_step st w c call :
  inv st w -> inv (step c call st) (w + withdrawn call st (step c call st)).
Proof.
  intros Hinv. unfold step, exec.
  destruct (dispatch c call st) as [e|[[u st'] evs]] eqn:H.
  { destruct call; simpl; rewrite ?Z.sub_diag, ?Z.add_0_r; done. }
  destruct call; simpl in H |- *; rewrite ?Z.add_0_r.
  - eapply inv_createParkingSpot; eauto.
  - eapply inv_reserveSpot; eauto.
  - eapply inv_startReservation; eauto.
  - eapply inv_completeReservation; eauto.
  - eapply inv_cancelReservation; eauto.
  - unfold updatePlatformFee, onlyOwner, set_platformFeePercentage in H.
    sym H; injection H as <- <- <-; frame_tac Hinv.
  - unfold updateOracle, onlyOwner, set_oracleAddress in H.
    sym H; injection H as <- <- <-; frame_tac Hinv.
  - unfold withdrawPlatformEarnings, onlyOwner, set_totalPlatformEarnings in H.
    sym H; injection H as <- <- <-; frame_tac Hinv.
  - unfold pause, onlyOwner, whenNotPaused, set_paused in H.
    sym H; injection H as <- <- <-; frame_tac Hinv.
  - unfold unpause, onlyOwner, whenPaused, set_paused in H.
    sym H; injection H as <- <- <-; frame_tac Hinv.
  - unfold transferOwnership, onlyOwner, set_owner in H.
    sym H; injection H as <- <- <-; frame_tac Hinv.
  - unfold renounceOwnership, onlyOwner, set_owner in H.
    sym H; injection H as <- <- <-; frame_tac Hinv.
Qed.

Lemma reach_inv st w : reach st w -> inv st w.
Proof.
  induction 1 as [d o|st w c call _ IH].
  - apply inv_init.
  - by apply inv_step.
Qed.

Lemma reach_step_sub st w' c call :
  reach st (w' - withdrawn call st (step c call st)) ->
  reach (step c call st) w'.
Proof.
  intros H. replace w' with ((w' - withdrawn call st (step c call st))
                             + withdrawn call st (step c call st)) by lia.
  by apply reach_step.
Qed.

(** Reachability of a concrete trace, computing the withdrawn total. *)
Ltac reach_trace :=
  repeat apply reach_step_sub;
  match goal with
  | |- reach _ ?e =>
      let v := eval vm_compute in e in
      replace e with v by (vm_compute; reflexivity)
  end;
  apply reach_init.

(** A deployment with one spot (1 wei per second), one reservation for two
    hours at [4000], which its requester cancels at [200]. *)
Definition trace_cancel : list (Ctx * Call) :=
  [(mkCtx 1 100 0, CreateParkingSpot "A1" 3600);
   (mkCtx 5 100 7200, ReserveSpot 1 4000 11200);
   (mkCtx 5 200 0, CancelReservation 1)].

Lemma trace_cancel_reach : reach (run trace_cancel (init 1 2)) 0.
Proof.
  unfold trace_cancel, run. reach_trace.
Qed.

(** A full lifecycle: reservation 1 is reserved, started at [4000] and
    completed at [9400]; reservation 2 is reserved and cancelled; the owner
    withdraws once. *)
Definition trace_life : list (Ctx * Call) :=
  [(mkCtx 1 100 0, CreateParkingSpot "A1" 3600);
   (mkCtx 5 100 7200, ReserveSpot 1 4000 11200);
   (mkCtx 2 4000 0, StartReservation 1);
   (mkCtx 2 9400 0, CompleteReservation 1);
   (mkCtx 1 9500 0, WithdrawPlatformEarnings);
   (mkCtx 6 9500 3600, ReserveSpot 1 20000 23600);
   (mkCtx 6 9600 0, CancelReservation 2)].

(** C1 (as stated): the platform's earnings plus the spots' earnings equal
    the actual cost of the Completed reservations in every reachable
    state. *)
Lemma C1_cancel_fee_breaks_balance :
  reach (run trace_cancel (init 1 2)) 0 /\
  earnings_sum (run trace_cancel (init 1 2))
  + totalPlatformEarnings (run trace_cancel (init 1 2))
  <> completed_cost_sum (run trace_cancel (init 1 2)).
Proof.
  split; [apply trace_cancel_reach|]. vm_compute. discriminate.
Qed.

(** ** Claim C1 (amended): in every reachable state, the spots' earnings
    plus the platform's earnings plus everything the owner has withdrawn
    equal the actual cost of the Completed reservations plus the 5%
    cancellation fees of the Cancelled ones. *)
Theorem booked_equals_collected st w :
  reach st w ->
  earnings_sum st + totalPlatformEarnings st + w
  = completed_cost_sum st + cancellation_fee_sum st.
Proof. intros H. apply (inv_balance _ _ (reach_inv st w H)). Qed.

Lemma booked_equals_collected_witness :
  reach (run trace_life (init 1 2)) 540 /\
  earnings_sum (run trace_life (init 1 2))
  + totalPlatformEarnings (run trace_life (init 1 2)) + 540
  = completed_cost_sum (run trace_life (init 1 2))
    + cancellation_fee_sum (run trace_life (init 1 2)).
Proof.
  assert (H : reach (run trace_life (init 1 2)) 540).
  { unfold trace_life, run. reach_trace. }
  split; [exact H | exact (booked_equals_collected _ _ H)].
Defined.

(** C2: spot 1 gets reservation 1 for [4000, 11200) and reservation 2 for
    [11200, 14800); reservation 2 is cancelled, which resets the spot's
    horizon to 0, and reservation 3 is then accepted for [4000, 7600). *)
Definition trace_overlap : list (Ctx * Call) :=
  [(mkCtx 1 100 0, CreateParkingSpot "A1" 3600);
   (mkCtx 5 100 7200, ReserveSpot 1 4000 11200);
   (mkCtx 6 100 3600, ReserveSpot 1 11200 14800);
   (mkCtx 6 200 0, CancelReservation 2);
   (mkCtx 7 300 3600, ReserveSpot 1 4000 7600)].

(** ** Claim C2 (code defect): a [reserveSpot] whose start lies before the
    end of an Active reservation of the same spot is accepted once a later
    reservation of that spot has been cancelled, so two Active reservations
    of one spot overlap in a reachable state. *)
Lemma overlap_after_cancel :
  reach (run trace_overlap (init 1 2)) 0 /\
  (let st := run trace_overlap (init 1 2) in
   let r1 := reservation_at st 1 in
   let r3 := reservation_at st 3 in
   Reservation.status r1 = Active /\ Reservation.status r3 = Active /\
   Reservation.spotId r1 = 1 /\ Reservation.spotId r3 = 1 /\
   Reservation.startTime r3 < Reservation.endTime r1 /\
   Reservation.startTime r1 < Reservation.endTime r3).
Proof.
  split.
  - unfold trace_overlap, run. reach_trace.
  - vm_compute. repeat split; reflexivity.
Qed.

(** The outcome of a successful [completeReservation]. *)
Lemma completeReservation_outcome c rid st u st' evs :
  completeReservation c rid st = inr (u, st', evs) ->
  let r := reservation_at st rid in
  let sid := Reservation.spotId r in
  let sp := spot_at st sid in
  let actualCost := (now c - Reservation.actualStartTime r)
                    * Spot.hourlyRate sp / 3600 in
  let platformFee := actualCost * platformFeePercentage st / 100 in
  let refund := if Reservation.totalCost r >? actualCost
                then Reservation.totalCost r - actualCost else 0 in
  Reservation.actualStartTime r > 0 /\
  parkingSpots st' = <[sid := Spot.mk (Spot.spotId sp) (Spot.location sp)
      (Spot.hourlyRate sp) (Spot.isActive sp) false 0 (Spot.reservationEnd sp)
      (Spot.totalEarnings sp + (actualCost - platformFee))
      (Spot.totalOccupations sp)]> (parkingSpots st) /\
  reservations st' = <[rid := Reservation.mk (Reservation.reservationId r)
      (Reservation.user r) sid (Reservation.startTime r) (Reservation.endTime r)
      (Reservation.totalCost r) (Reservation.paidAmount r) Completed
      (Reservation.actualStartTime r) (now c)]> (reservations st) /\
  totalPlatformEarnings st' = totalPlatformEarnings st + platformFee /\
  evs = (if Reservation.totalCost r >? actualCost
         then [Transfer (Reservation.user r) refund] else [])
        ++ [ReservationCompleted rid (now c) actualCost refund;
            SpotOccupancyChanged sid false 0].
Proof.
  intros H.
  unfold completeReservation, onlyOracle, validReservation, set_reservation,
    set_spot, set_totalPlatformEarnings in H.
  sym H; injection H as <- <- <-; simpl; rewrite ?E10; zb;
    (split; [lia|]); repeat split; reflexivity.
Qed.

(** ** Claim C3: a successful [completeReservation] records the actual end
    time, credits the spot with [actualCost - platformFee] and the platform
    with [platformFee], where [actualCost] is the floor of
    [(actualEndTime - actualStartTime) * hourlyRate / 3600] and [platformFee]
    the floor of [actualCost * feePercent / 100]; the refund sent to the
    requester is [totalCost - actualCost] when [totalCost > actualCost] and
    0 otherwise, never negative, nonzero only when [actualCost < totalCost]. *)
Theorem settlement_arithmetic c rid st u st' evs :
  completeReservation c rid st = inr (u, st', evs) ->
  let r := reservation_at st rid in
  let r' := reservation_at st' rid in
  let sid := Reservation.spotId r in
  let actualCost := (Reservation.actualEndTime r' - Reservation.actualStartTime r')
                    * Spot.hourlyRate (spot_at st sid) / 3600 in
  let platformFee := actualCost * platformFeePercentage st / 100 in
  Reservation.status r' = Completed /\
  Reservation.actualEndTime r' = now c /\
  Reservation.actualStartTime r' = Reservation.actualStartTime r /\
  Spot.totalEarnings (spot_at st' sid)
    = Spot.totalEarnings (spot_at st sid) + (actualCost - platformFee) /\
  totalPlatformEarnings st' = totalPlatformEarnings st + platformFee /\
  exists refund,
    refund = (if Reservation.totalCost r >? actualCost
              then Reservation.totalCost r - actualCost else 0) /\
    evs = (if Reservation.totalCost r >? actualCost
           then [Transfer (Reservation.user r) refund] else [])
          ++ [ReservationCompleted rid (now c) actualCost refund;
              SpotOccupancyChanged sid false 0] /\
    0 <= refund /\
    (refund <> 0 -> actualCost < Reservation.totalCost r).
Proof.
  intros H.
  destruct (completeReservation_outcome c rid st u st' evs H)
    as (Hstart & Hps & Hres & Hp & Hevs).
  unfold reservation_at at 2, spot_at at 1. rewrite Hres, Hps.
  rewrite !lookup_insert_eq. simpl.
  repeat split; try reflexivity; [exact Hp|].
  eexists; split; [reflexivity|]. split; [exact Hevs|].
  destruct (_ >? _) eqn:Hgt; zb; [|lia].
  split; lia.
Qed.

(** ** Claim C10: when a successful [completeReservation] finds
    [actualCost > totalCost], nothing is refunded and [paidAmount] is left
    as it was, yet the spot and the platform are credited with the whole
    [actualCost]: the amounts booked for this completion exceed the escrowed
    [totalCost] by [actualCost - totalCost]. *)
Theorem overstay_booked_beyond_escrow c rid st u st' evs :
  completeReservation c rid st = inr (u, st', evs) ->
  let r := reservation_at st rid in
  let sid := Reservation.spotId r in
  let actualCost := (now c - Reservation.actualStartTime r)
                    * Spot.hourlyRate (spot_at st sid) / 3600 in
  Reservation.totalCost r < actualCost ->
  evs = [ReservationCompleted rid (now c) actualCost 0;
         SpotOccupancyChanged sid false 0] /\
  Reservation.paidAmount (reservation_at st' rid) = Reservation.paidAmount r /\
  (Spot.totalEarnings (spot_at st' sid) - Spot.totalEarnings (spot_at st sid))
    + (totalPlatformEarnings st' - totalPlatformEarnings st) = actualCost /\
  (Spot.totalEarnings (spot_at st' sid) - Spot.totalEarnings (spot_at st sid))
    + (totalPlatformEarnings st' - totalPlatformEarnings st)
    - Reservation.totalCost r = actualCost - Reservation.totalCost r.
Proof.
  intros H r sid actualCost Hover.
  destruct (completeReservation_outcome c rid st u st' evs H)
    as (Hstart & Hps & Hres & Hp & Hevs).
  fold r sid actualCost in Hps, Hres, Hp, Hevs.
  assert (Hgt : (Reservation.totalCost r >? actualCost) = false)
    by (rewrite Z.gtb_ltb; apply Z.ltb_ge; lia).
  rewrite Hgt in Hevs.
  assert (Hsp : Spot.totalEarnings (spot_at st' sid)
                = Spot.totalEarnings (spot_at st sid)
                  + (actualCost - actualCost * platformFeePercentage st / 100))
    by (unfold spot_at at 1; rewrite Hps, lookup_insert_eq; reflexivity).
  assert (Hpaid : Reservation.paidAmount (reservation_at st' rid)
                  = Reservation.paidAmount r)
    by (unfold reservation_at at 1; rewrite Hres, lookup_insert_eq; reflexivity).
  rewrite Hsp, Hpaid, Hp. repeat split; [exact Hevs|lia|lia].
Qed.

(** C4: spot 1 and reservation 1 of user 5 for [4000, 11200), not started. *)
Definition trace_reserved : list (Ctx * Call) :=
  [(mkCtx 1 100 0, CreateParkingSpot "A1" 3600);
   (mkCtx 5 100 7200, ReserveSpot 1 4000 11200)].

(** C4 (as stated): the requester of an Active reservation that has not
    been started cannot cancel it once [block.timestamp >= startTime]. *)
Lemma cancel_refused_after_start_time :
  reach (run trace_reserved (init 1 2)) 0 /\
  Reservation.user (reservation_at (run trace_reserved (init 1 2)) 1) = 5 /\
  Reservation.status (reservation_at (run trace_reserved (init 1 2)) 1) = Active /\
  Reservation.actualStartTime (reservation_at (run trace_reserved (init 1 2)) 1) = 0 /\
  cancelReservation (mkCtx 5 5000 0) 1 (run trace_reserved (init 1 2))
  = inl TropTardPourAnnuler.
Proof.
  split; [unfold trace_reserved, run; reach_trace|].
  vm_compute. repeat split; reflexivity.
Qed.

(** The storage effect of [cancelReservation] and its success condition,
    without the balance. *)
Lemma cancel_body c rid st :
  let r := reservation_at st rid in
  let fee := Reservation.totalCost r * 5 / 100 in
  ((exists st' evs, cancelReservation c rid st = inr (tt, st', evs)) <->
     rid < nextReservationId st /\ Reservation.user r = sender c /\
     Reservation.status r = Active /\ Reservation.actualStartTime r = 0 /\
     now c < Reservation.startTime r /\
     0 <= Reservation.totalCost r * 5 <= UINT_MAX /\
     0 <= Reservation.totalCost r - fee <= UINT_MAX /\
     0 <= totalPlatformEarnings st + fee <= UINT_MAX) /\
  (forall u st' evs, cancelReservation c rid st = inr (u, st', evs) ->
     Reservation.status (reservation_at st' rid) = Cancelled /\
     totalPlatformEarnings st' = totalPlatformEarnings st + fee /\
     Spot.reservationEnd (spot_at st' (Reservation.spotId r)) = 0 /\
     evs = [Transfer (sender c) (Reservation.totalCost r - fee);
            ReservationCancelled rid (Reservation.totalCost r - fee)]) /\
  (forall e, cancelReservation c rid st = inl e ->
     exec (cancelReservation c rid) st = st).
Proof.
  intros r fee. subst r fee. split; [split|split].
  - intros (st' & evs & H).
    unfold cancelReservation, validReservation, set_reservation,
      set_spot, set_totalPlatformEarnings in H.
    sym H. zb. apply status_eqb_eq in E1.
    repeat split; auto; lia.
  - intros (H1 & H2 & H3 & H4 & H5 & H6 & H7 & H8).
    unfold cancelReservation, validReservation, set_reservation,
      set_spot, set_totalPlatformEarnings.
    cbv beta iota zeta delta [bind get put require checked emit ret].
    rewrite (proj2 (Z.ltb_lt _ _) H1), H2, Z.eqb_refl, H3, H4. simpl.
    rewrite (proj2 (Z.ltb_lt _ _) H5).
    rewrite (proj2 (Z.leb_le _ _) (proj1 H6)), (proj2 (Z.leb_le _ _) (proj2 H6)).
    simpl.
    rewrite (proj2 (Z.leb_le _ _) (proj1 H7)), (proj2 (Z.leb_le _ _) (proj2 H7)).
    rewrite (proj2 (Z.leb_le _ _) (proj1 H8)), (proj2 (Z.leb_le _ _) (proj2 H8)).
    simpl. eauto.
  - intros u st' evs H.
    unfold cancelReservation, validReservation, set_reservation,
      set_spot, set_totalPlatformEarnings in H.
    sym H. injection H as <- <- <-.
    unfold reservation_at, spot_at. simpl.
    rewrite !lookup_insert_eq. repeat split; reflexivity.
  - intros e H. unfold exec. by rewrite H.
Qed.

Import ParkingSystemLedger.

Lemma status_eqb_neq a b : a <> b -> status_eqb a b = false.
Proof.
  intros Hab. destruct (status_eqb a b) eqn:E; [|reflexivity].
  apply status_eqb_eq in E. contradiction.
Qed.

Lemma transact_nonpayable c call st bal :
  payable call = false -> value c = 0 ->
  transact c call st bal =
  match dispatch c call st with
  | inl e => inl (Reverted e)
  | inr (_, st', evs) =>
      if transferred evs <=? bal then inr (st', bal - transferred evs, evs)
      else inl TransferFailed
  end.
Proof.
  intros Hp Hv. unfold transact. rewrite Hp, Hv. simpl.
  destruct (dispatch c call st) as [e|[[u st'] evs]]; [reflexivity|].
  by rewrite Z.add_0_r.
Qed.

(** ** Claim C4 (amended): with the contract's balance [bal],
    [cancelReservation(id)] succeeds exactly when no ether is sent, the id is
    below [nextReservationId], the caller is the requester, the reservation
    is Active and not started, [block.timestamp < startTime], the fee
    arithmetic fits in [uint256] and the refund
    [totalCost - floor(totalCost * 5 / 100)] does not exceed the balance. It
    then sends that refund to the caller, adds the fee to the platform's
    earnings, marks the reservation Cancelled and resets the spot's horizon
    to 0. Otherwise it reverts with the reason of the first failing check, in
    the order of the source: non-payable, [validReservation], the four
    [require]s, checked arithmetic ([Panic]), then the [transfer]. *)
Theorem cancel_precondition c rid st bal :
  let r := reservation_at st rid in
  let fee := Reservation.totalCost r * 5 / 100 in
  let refund := Reservation.totalCost r - fee in
  let arith_ok := 0 <= Reservation.totalCost r * 5 <= UINT_MAX /\
                  0 <= refund <= UINT_MAX /\
                  0 <= totalPlatformEarnings st + fee <= UINT_MAX in
  ((exists st' bal' evs,
      transact c (CancelReservation rid) st bal = inr (st', bal', evs)) <->
     value c = 0 /\ rid < nextReservationId st /\ Reservation.user r = sender c /\
     Reservation.status r = Active /\ Reservation.actualStartTime r = 0 /\
     now c < Reservation.startTime r /\ arith_ok /\ refund <= bal) /\
  (forall st' bal' evs,
     transact c (CancelReservation rid) st bal = inr (st', bal', evs) ->
     Reservation.status (reservation_at st' rid) = Cancelled /\
     totalPlatformEarnings st' = totalPlatformEarnings st + fee /\
     Spot.reservationEnd (spot_at st' (Reservation.spotId r)) = 0 /\
     bal' = bal - refund /\
     evs = [Transfer (sender c) refund; ReservationCancelled rid refund]) /\
  (value c <> 0 -> transact c (CancelReservation rid) st bal = inl NotPayable) /\
  (value c = 0 -> nextReservationId st <= rid ->
   transact c (CancelReservation rid) st bal = inl (Reverted ReservationInexistante)) /\
  (value c = 0 -> rid < nextReservationId st -> Reservation.user r <> sender c ->
   transact c (CancelReservation rid) st bal = inl (Reverted PasAutorise)) /\
  (value c = 0 -> rid < nextReservationId st -> Reservation.user r = sender c ->
   Reservation.status r <> Active ->
   transact c (CancelReservation rid) st bal = inl (Reverted ReservationNonActive)) /\
  (value c = 0 -> rid < nextReservationId st -> Reservation.user r = sender c ->
   Reservation.status r = Active -> Reservation.actualStartTime r <> 0 ->
   transact c (CancelReservation rid) st bal = inl (Reverted AnnulationApresDebut)) /\
  (value c = 0 -> rid < nextReservationId st -> Reservation.user r = sender c ->
   Reservation.status r = Active -> Reservation.actualStartTime r = 0 ->
   Reservation.startTime r <= now c ->
   transact c (CancelReservation rid) st bal = inl (Reverted TropTardPourAnnuler)) /\
  (value c = 0 -> rid < nextReservationId st -> Reservation.user r = sender c ->
   Reservation.status r = Active -> Reservation.actualStartTime r = 0 ->
   now c < Reservation.startTime r -> ~ arith_ok ->
   transact c (CancelReservation rid) st bal = inl (Reverted Panic)) /\
  (value c = 0 -> rid < nextReservationId st -> Reservation.user r = sender c ->
   Reservation.status r = Active -> Reservation.actualStartTime r = 0 ->
   now c < Reservation.startTime r -> arith_ok -> bal < refund ->
   transact c (CancelReservation rid) st bal = inl TransferFailed).
Proof.
  intros r fee refund arith_ok. unfold arith_ok.
  destruct (cancel_body c rid st) as (Hiff & Heff & _).
  fold r fee in Hiff, Heff. fold refund in Hiff, Heff.
  assert (Htr : transferred [Transfer (sender c) refund; ReservationCancelled rid refund]
                = refund) by (simpl; lia).
  assert (Hbody : cancelReservation c rid st =
    if (rid <? nextReservationId st) then
    if (Reservation.user r =? sender c) then
    if status_eqb (Reservation.status r) Active then
    if (Reservation.actualStartTime r =? 0) then
    if (now c <? Reservation.startTime r) then
      match cancelReservation c rid st with
      | inl e => inl e | inr x => inr x end
    else inl TropTardPourAnnuler else inl AnnulationApresDebut
    else inl ReservationNonActive else inl PasAutorise
    else inl ReservationInexistante).
  { destruct (cancelReservation c rid st) eqn:Hc at 2;
    unfold cancelReservation, validReservation in Hc |- *;
    cbv beta iota zeta delta [bind get require] in Hc |- *; fold r in Hc |- *;
    repeat (destruct (_ <? _); try reflexivity);
    repeat (destruct (_ =? _); try reflexivity);
    destruct (status_eqb _ _); try reflexivity; exact Hc. }
  split; [|split; [|split; [|split; [|split; [|split; [|split; [|split; [|split]]]]]]]].
  - split.
    + intros (st' & bal' & evs & H).
      destruct (value c =? 0) eqn:Hv;
        [|unfold transact in H; simpl in H; rewrite Hv in H; discriminate H].
      apply Z.eqb_eq in Hv.
      rewrite transact_nonpayable in H by (reflexivity || exact Hv). simpl in H.
      destruct (cancelReservation c rid st) as [e|[[[] st1] evs1]] eqn:Hc;
        [discriminate H|].
      destruct (Heff tt st1 evs1 eq_refl) as (_ & _ & _ & ->).
      rewrite Htr in H.
      destruct (refund <=? bal) eqn:Hb; [|discriminate H]. apply Z.leb_le in Hb.
      destruct (proj1 Hiff (ex_intro _ st1 (ex_intro _ _ eq_refl)))
        as (H1 & H2 & H3 & H4 & H5 & H6 & H7 & H8).
      tauto.
    + intros (Hv & H1 & H2 & H3 & H4 & H5 & (H6 & H7 & H8) & Hb).
      destruct (proj2 Hiff (conj H1 (conj H2 (conj H3 (conj H4 (conj H5
                  (conj H6 (conj H7 H8))))))))
        as (st1 & evs1 & Hc).
      destruct (Heff tt st1 evs1 Hc) as (_ & _ & _ & Hevs).
      rewrite transact_nonpayable by (reflexivity || exact Hv). simpl.
      rewrite Hc, Hevs, Htr. rewrite (proj2 (Z.leb_le _ _) Hb). eauto.
  - intros st' bal' evs H.
    destruct (value c =? 0) eqn:Hv;
      [|unfold transact in H; simpl in H; rewrite Hv in H; discriminate H].
    apply Z.eqb_eq in Hv.
    rewrite transact_nonpayable in H by (reflexivity || exact Hv). simpl in H.
    destruct (cancelReservation c rid st) as [e|[[[] st1] evs1]] eqn:Hc;
      [discriminate H|].
    destruct (Heff tt st1 evs1 eq_refl) as (E1 & E2 & E3 & E4).
    subst evs1. rewrite Htr in H.
    destruct (refund <=? bal) eqn:Hb; [|discriminate H].
    injection H as <- <- <-. tauto.
  - intros Hv. unfold transact. simpl.
    rewrite (proj2 (Z.eqb_neq _ _) Hv). reflexivity.
  - intros Hv H1. rewrite transact_nonpayable by (reflexivity || exact Hv).
    simpl. rewrite Hbody, (proj2 (Z.ltb_ge _ _) H1). reflexivity.
  - intros Hv H1 H2. rewrite transact_nonpayable by (reflexivity || exact Hv).
    simpl. rewrite Hbody, (proj2 (Z.ltb_lt _ _) H1), (proj2 (Z.eqb_neq _ _) H2).
    reflexivity.
  - intros Hv H1 H2 H3. rewrite transact_nonpayable by (reflexivity || exact Hv).
    simpl. rewrite Hbody, (proj2 (Z.ltb_lt _ _) H1), H2, Z.eqb_refl, status_eqb_neq
      by exact H3.
    reflexivity.
  - intros Hv H1 H2 H3 H4. rewrite transact_nonpayable by (reflexivity || exact Hv).
    simpl. rewrite Hbody, (proj2 (Z.ltb_lt _ _) H1), H2, Z.eqb_refl, H3.
    simpl. rewrite (proj2 (Z.eqb_neq _ _) H4). reflexivity.
  - intros Hv H1 H2 H3 H4 H5. rewrite transact_nonpayable by (reflexivity || exact Hv).
    simpl. rewrite Hbody, (proj2 (Z.ltb_lt _ _) H1), H2, Z.eqb_refl, H3, H4.
    simpl. rewrite (proj2 (Z.ltb_ge _ _) H5). reflexivity.
  - intros Hv H1 H2 H3 H4 H5 Har.
    rewrite transact_nonpayable by (reflexivity || exact Hv). simpl.
    unfold cancelReservation, validReservation, set_reservation, set_spot,
      set_totalPlatformEarnings.
    cbv beta iota zeta delta [bind get put require checked emit ret].
    rewrite (proj2 (Z.ltb_lt _ _) H1). simpl. fold r.
    rewrite H2, Z.eqb_refl. simpl. rewrite H3. simpl. rewrite H4. simpl.
    rewrite (proj2 (Z.ltb_lt _ _) H5). simpl. fold fee.
    repeat match goal with |- context [if ?b then _ else _] =>
      let E := fresh "E" in destruct b eqn:E; simpl end;
      try reflexivity; exfalso; apply Har; unfold refund; zb; lia.
  - intros Hv H1 H2 H3 H4 H5 (H6 & H7 & H8) Hb.
    destruct (proj2 Hiff (conj H1 (conj H2 (conj H3 (conj H4 (conj H5
                (conj H6 (conj H7 H8))))))))
      as (st1 & evs1 & Hc).
    destruct (Heff tt st1 evs1 Hc) as (_ & _ & _ & Hevs).
    rewrite transact_nonpayable by (reflexivity || exact Hv). simpl.
    rewrite Hc, Hevs, Htr. rewrite (proj2 (Z.leb_gt _ _) Hb). reflexivity.
Qed.

Lemma cancel_precondition_witness :
  let sb := ledger_run overstay_withdrawn (init 1 2, 0) in
  let r := reservation_at sb.1 2 in
  Reservation.user r = 6 /\ Reservation.status r = Active /\
  Reservation.actualStartTime r = 0 /\ 364200 < Reservation.startTime r /\
  sb.2 = 54000 /\ Reservation.totalCost r - Reservation.totalCost r * 5 / 100 = 82080 /\
  transact (mkCtx 6 364200 0) (CancelReservation 2) sb.1 sb.2 = inl TransferFailed.
Proof.
  intros sb r.
  destruct (cancel_precondition (mkCtx 6 364200 0) 2 sb.1 sb.2)
    as (_ & _ & _ & _ & _ & _ & _ & _ & _ & Hlast).
  assert (H1 : Reservation.user r = 6) by (vm_compute; reflexivity).
  assert (H2 : Reservation.status r = Active) by (vm_compute; reflexivity).
  assert (H3 : Reservation.actualStartTime r = 0) by (vm_compute; reflexivity).
  assert (H4 : 364200 < Reservation.startTime r) by (vm_compute; reflexivity).
  assert (H5 : sb.2 = 54000) by (vm_compute; reflexivity).
  assert (H6 : Reservation.totalCost r - Reservation.totalCost r * 5 / 100 = 82080)
    by (vm_compute; reflexivity).
  do 6 (split; [assumption|]).
  apply Hlast.
  - reflexivity.
  - vm_compute. reflexivity.
  - exact H1.
  - exact H2.
  - exact H3.
  - exact H4.
  - vm_compute. repeat split; discriminate.
  - fold r. rewrite H5, H6. lia.
Defined.


(** Reservation 1 of [trace_reserved], started by the oracle (address 2) at
    [4000]. *)
Definition trace_started : list (Ctx * Call) :=
  trace_reserved ++ [(mkCtx 2 4000 0, StartReservation 1)].

Lemma settlement_arithmetic_witness :
  let c := mkCtx 2 9400 0 in
  let rid := 1 in
  let st := run trace_started (init 1 2) in
  let u := tt in
  let st' := step c (CompleteReservation rid) st in
  let evs := [Transfer 5 1800; ReservationCompleted 1 9400 5400 1800;
              SpotOccupancyChanged 1 false 0] in
  completeReservation c rid st = inr (u, st', evs) /\
  (let r := reservation_at st rid in
   let r' := reservation_at st' rid in
   let sid := Reservation.spotId r in
   let actualCost := (Reservation.actualEndTime r' - Reservation.actualStartTime r')
                     * Spot.hourlyRate (spot_at st sid) / 3600 in
   let platformFee := actualCost * platformFeePercentage st / 100 in
   Reservation.status r' = Completed /\
   Reservation.actualEndTime r' = now c /\
   Reservation.actualStartTime r' = Reservation.actualStartTime r /\
   Spot.totalEarnings (spot_at st' sid)
     = Spot.totalEarnings (spot_at st sid) + (actualCost - platformFee) /\
   totalPlatformEarnings st' = totalPlatformEarnings st + platformFee /\
   exists refund,
     refund = (if Reservation.totalCost r >? actualCost
               then Reservation.totalCost r - actualCost else 0) /\
     evs = (if Reservation.totalCost r >? actualCost
            then [Transfer (Reservation.user r) refund] else [])
           ++ [ReservationCompleted rid (now c) actualCost refund;
               SpotOccupancyChanged sid false 0] /\
     0 <= refund /\
     (refund <> 0 -> actualCost < Reservation.totalCost r)).
Proof.
  intros c rid st u st' evs.
  assert (H : completeReservation c rid st = inr (u, st', evs))
    by (vm_compute; reflexivity).
  split; [exact H | exact (settlement_arithmetic c rid st u st' evs H)].
Defined.

Lemma overstay_booked_beyond_escrow_witness :
  let c := mkCtx 2 20000 0 in
  let rid := 1 in
  let st := run trace_started (init 1 2) in
  let u := tt in
  let st' := step c (CompleteReservation rid) st in
  let evs := [ReservationCompleted 1 20000 16000 0;
              SpotOccupancyChanged 1 false 0] in
  completeReservation c rid st = inr (u, st', evs) /\
  (let r := reservation_at st rid in
   let sid := Reservation.spotId r in
   let actualCost := (now c - Reservation.actualStartTime r)
                     * Spot.hourlyRate (spot_at st sid) / 3600 in
   Reservation.totalCost r < actualCost /\
   (evs = [ReservationCompleted rid (now c) actualCost 0;
           SpotOccupancyChanged sid false 0] /\
    Reservation.paidAmount (reservation_at st' rid) = Reservation.paidAmount r /\
    (Spot.totalEarnings (spot_at st' sid) - Spot.totalEarnings (spot_at st sid))
      + (totalPlatformEarnings st' - totalPlatformEarnings st) = actualCost /\
    (Spot.totalEarnings (spot_at st' sid) - Spot.totalEarnings (spot_at st sid))
      + (totalPlatformEarnings st' - totalPlatformEarnings st)
      - Reservation.totalCost r = actualCost - Reservation.totalCost r)).
Proof.
  intros c rid st u st' evs.
  assert (H : completeReservation c rid st = inr (u, st', evs))
    by (vm_compute; reflexivity).
  assert (Hover : Reservation.totalCost (reservation_at st rid)
                  < (now c - Reservation.actualStartTime (reservation_at st rid))
                    * Spot.hourlyRate (spot_at st (Reservation.spotId
                        (reservation_at st rid))) / 3600)
    by (vm_compute; reflexivity).
  split; [exact H|].
  split; [exact Hover|].
  exact (overstay_booked_beyond_escrow c rid st u st' evs H Hover).
Defined.
End ParkingSystemProofs.

(** ** [ParkingOracle]: reputation, replay protection, validation, history *)
Module ParkingOracleProofs.
Import ParkingOracle OracleTraces OracleSpec.

(** Reading a storage map through the setters. *)
Lemma node_at_with_node a n st b :
  node_at (with_node a n st) b = if decide (a = b) then n else node_at st b.
Proof.
  unfold node_at, with_node; simpl. case_decide as Hab.
  - subst. by rewrite lookup_insert_eq.
  - by rewrite lookup_insert_ne.
Qed.

Lemma processed_with_processed h b st h' :
  processed (with_processed h b st) h' = if decide (h = h') then b else processed st h'.
Proof.
  unfold processed, with_processed; simpl. case_decide as Hh.
  - subst. by rewrite lookup_insert_eq.
  - by rewrite lookup_insert_ne.
Qed.

Lemma history_at_with_history k l st k' :
  history_at (with_history k l st) k' = if decide (k = k') then l else history_at st k'.
Proof.
  unfold history_at, with_history; simpl. case_decide as Hk.
  - subst. by rewrite lookup_insert_eq.
  - by rewrite lookup_insert_ne.
Qed.

Lemma latest_at_with_latest k d st k' :
  latest_at (with_latest k d st) k' = if decide (k = k') then d else latest_at st k'.
Proof.
  unfold latest_at, with_latest; simpl. case_decide as Hk.
  - subst. by rewrite lookup_insert_eq.
  - by rewrite lookup_insert_ne.
Qed.

Lemma node_at_frame st b :
  (forall k d, node_at (with_latest k d st) b = node_at st b) /\
  (forall k l, node_at (with_history k l st) b = node_at st b) /\
  (forall h x, node_at (with_processed h x st) b = node_at st b) /\
  (forall l, node_at (with_activeOracles l st) b = node_at st b) /\
  (forall a, node_at (with_parkingSystemContract a st) b = node_at st b) /\
  (forall a, node_at (with_owner a st) b = node_at st b) /\
  (forall x, node_at (with_paused x st) b = node_at st b).
Proof. repeat split. Qed.

Lemma node_at_with_latest k d st b : node_at (with_latest k d st) b = node_at st b.
Proof. apply node_at_frame. Qed.
Lemma node_at_with_history k l st b : node_at (with_history k l st) b = node_at st b.
Proof. apply node_at_frame. Qed.
Lemma node_at_with_processed h x st b : node_at (with_processed h x st) b = node_at st b.
Proof. apply node_at_frame. Qed.
Lemma node_at_with_activeOracles l st b :
  node_at (with_activeOracles l st) b = node_at st b.
Proof. apply node_at_frame. Qed.
Lemma node_at_with_parkingSystemContract a st b :
  node_at (with_parkingSystemContract a st) b = node_at st b.
Proof. apply node_at_frame. Qed.
Lemma node_at_with_owner a st b : node_at (with_owner a st) b = node_at st b.
Proof. apply node_at_frame. Qed.
Lemma node_at_with_paused x st b : node_at (with_paused x st) b = node_at st b.
Proof. apply node_at_frame. Qed.

Create Rewrite HintDb oracle.
Create Rewrite HintDb oracle_data.
#[local] Hint Rewrite node_at_with_node node_at_with_latest node_at_with_history
  node_at_with_processed node_at_with_activeOracles
  node_at_with_parkingSystemContract node_at_with_owner node_at_with_paused
  : oracle.

Lemma latest_at_with_node a n st b : latest_at (with_node a n st) b = latest_at st b.
Proof. reflexivity. Qed.
Lemma latest_at_with_history a l st b : latest_at (with_history a l st) b = latest_at st b.
Proof. reflexivity. Qed.
Lemma latest_at_with_processed a x st b : latest_at (with_processed a x st) b = latest_at st b.
Proof. reflexivity. Qed.
Lemma latest_at_with_activeOracles l st b : latest_at (with_activeOracles l st) b = latest_at st b.
Proof. reflexivity. Qed.
Lemma latest_at_with_parkingSystemContract a st b : latest_at (with_parkingSystemContract a st) b = latest_at st b.
Proof. reflexivity. Qed.
Lemma latest_at_with_owner a st b : latest_at (with_owner a st) b = latest_at st b.
Proof. reflexivity. Qed.
Lemma latest_at_with_paused x st b : latest_at (with_paused x st) b = latest_at st b.
Proof. reflexivity. Qed.
Lemma history_at_with_node a n st b : history_at (with_node a n st) b = history_at st b.
Proof. reflexivity. Qed.
Lemma history_at_with_latest a d st b : history_at (with_latest a d st) b = history_at st b.
Proof. reflexivity. Qed.
Lemma history_at_with_processed a x st b : history_at (with_processed a x st) b = history_at st b.
Proof. reflexivity. Qed.
Lemma history_at_with_activeOracles l st b : history_at (with_activeOracles l st) b = history_at st b.
Proof. reflexivity. Qed.
Lemma history_at_with_parkingSystemContract a st b : history_at (with_parkingSystemContract a st) b = history_at st b.
Proof. reflexivity. Qed.
Lemma history_at_with_owner a st b : history_at (with_owner a st) b = history_at st b.
Proof. reflexivity. Qed.
Lemma history_at_with_paused x st b : history_at (with_paused x st) b = history_at st b.
Proof. reflexivity. Qed.
Lemma processed_with_node a n st b : processed (with_node a n st) b = processed st b.
Proof. reflexivity. Qed.
Lemma processed_with_latest a d st b : processed (with_latest a d st) b = processed st b.
Proof. reflexivity. Qed.
Lemma processed_with_history a l st b : processed (with_history a l st) b = processed st b.
Proof. reflexivity. Qed.
Lemma processed_with_activeOracles l st b : processed (with_activeOracles l st) b = processed st b.
Proof. reflexivity. Qed.
Lemma processed_with_parkingSystemContract a st b : processed (with_parkingSystemContract a st) b = processed st b.
Proof. reflexivity. Qed.
Lemma processed_with_owner a st b : processed (with_owner a st) b = processed st b.
Proof. reflexivity. Qed.
Lemma processed_with_paused x st b : processed (with_paused x st) b = processed st b.
Proof. reflexivity. Qed.

#[local] Hint Rewrite latest_at_with_node latest_at_with_history latest_at_with_processed latest_at_with_activeOracles latest_at_with_parkingSystemContract latest_at_with_owner latest_at_with_paused history_at_with_node history_at_with_latest history_at_with_processed history_at_with_activeOracles history_at_with_parkingSystemContract history_at_with_owner history_at_with_paused processed_with_node processed_with_latest processed_with_history processed_with_activeOracles processed_with_parkingSystemContract processed_with_owner processed_with_paused : oracle_data.
#[local] Hint Rewrite processed_with_processed history_at_with_history latest_at_with_latest : oracle_data.

Lemma isActive_set_reputation n r :
  OracleNode.isActive (set_reputation n r) = OracleNode.isActive n.
Proof. reflexivity. Qed.
Lemma reputation_set_reputation n r : OracleNode.reputation (set_reputation n r) = r.
Proof. reflexivity. Qed.
Lemma isActive_set_isActive n b : OracleNode.isActive (set_isActive n b) = b.
Proof. reflexivity. Qed.
Lemma reputation_set_isActive n b :
  OracleNode.reputation (set_isActive n b) = OracleNode.reputation n.
Proof. reflexivity. Qed.

#[local] Hint Rewrite isActive_set_reputation reputation_set_reputation
  isActive_set_isActive reputation_set_isActive : oracle.

(** Symbolic execution of one external call of the oracle contract. *)
Ltac osym H :=
  unfold updateSensorData, addOracleNode, removeOracleNode,
    updateParkingSystemContract, updateOracleReputation, pause, unpause,
    transferOwnership, renounceOwnership, onlyAuthorizedOracle, onlyOwner,
    whenNotPaused, whenPaused, validSpotId, cooldownPassed, _validateSensorData,
    _penalizeOracle, _rewardOracle, _shouldNotifyParkingSystem,
    _notifyParkingSystem, push_history, modify in H;
  cbv beta iota zeta delta [bind get put require checked emit ret negb andb orb]
    in H;
  repeat (match type of H with
          | context [if ?b then _ else _] =>
              let E := fresh "E" in destruct b eqn:E
          | context [match ?o with Some _ => _ | None => _ end] =>
              let E := fresh "E" in destruct o eqn:E
          end; cbv beta iota zeta in H);
  try discriminate H.

Ltac ozb := repeat match goal with
  | H : (if ?b then _ else _) = _ |- _ =>
      let E := fresh "E" in destruct b eqn:E; try discriminate H
  | H : (_ =? _) = true |- _ => apply Z.eqb_eq in H
  | H : (_ =? _) = false |- _ => apply Z.eqb_neq in H
  | H : (_ <? _) = true |- _ => apply Z.ltb_lt in H
  | H : (_ <? _) = false |- _ => apply Z.ltb_ge in H
  | H : (_ >? _) = true |- _ => apply Z.gtb_lt in H
  | H : (_ >? _) = false |- _ => rewrite Z.gtb_ltb in H; apply Z.ltb_ge in H
  | H : (_ >=? _) = true |- _ => apply Z.geb_le in H
  | H : (_ >=? _) = false |- _ => rewrite Z.geb_leb in H; apply Z.leb_gt in H
  | H : (_ <=? _) = true |- _ => apply Z.leb_le in H
  | H : (_ <=? _) = false |- _ => apply Z.leb_gt in H
  end.

(** Reputation stays in [0, 1000] across one ABI-decodable transaction. *)
Lemma step_reputation_bound st c call :
  (forall a, 0 <= OracleNode.reputation (node_at st a) <= 1000) ->
  wf_call call ->
  forall a, 0 <= OracleNode.reputation (node_at (step c call st) a) <= 1000.
Proof.
  intros Hb Hwf a. unfold step, exec.
  destruct (dispatch c call st) as [e|[[u st'] evs]] eqn:H; [apply Hb|].
  destruct call; simpl in H, Hwf; osym H.
  all: injection H as _ <- _; autorewrite with oracle in *;
    repeat case_decide; subst; autorewrite with oracle in *; simpl in *; ozb;
    unfold uint, addr in *;
    try pose proof (Hb a); try pose proof (Hb (sender c)); lia.
Qed.
(** An inactive node stays inactive under every transaction other than its
    own re-registration by [addOracleNode]. *)
Lemma step_keeps_inactive st c call a :
  OracleNode.isActive (node_at st a) = false ->
  (forall n, call <> AddOracleNode a n) ->
  OracleNode.isActive (node_at (step c call st) a) = false.
Proof.
  intros Hin Hnot. unfold step, exec.
  destruct (dispatch c call st) as [e|[[u st'] evs]] eqn:H; [exact Hin|].
  destruct call; simpl in H; osym H.
  all: injection H as _ <- _; autorewrite with oracle in *;
    repeat case_decide; subst; autorewrite with oracle in *; simpl in *;
    try congruence; exfalso; eapply Hnot; reflexivity.
Qed.
Lemma reachable_reputation_bound st :
  reachable st -> forall a, 0 <= OracleNode.reputation (node_at st a) <= 1000.
Proof.
  induction 1 as [d p Hd Hp|st c call Hr IH Hc Hcall].
  - intros a. unfold node_at. simpl. rewrite lookup_empty. simpl. lia.
  - by apply step_reputation_bound.
Qed.

(** [_penalizeOracle] writes the node only. *)
Lemma penalize_frame a st u st' evs :
  _penalizeOracle a st = inr (u, st', evs) ->
  latestSensorData st' = latestSensorData st /\
  sensorHistory st' = sensorHistory st /\
  processedDataHashes st' = processedDataHashes st.
Proof.
  intros H. osym H; injection H as _ <- _; repeat split.
Qed.

Lemma penalize_ok a st :
  0 <= OracleNode.reputation (node_at st a) <= UINT_MAX ->
  exists st' evs, _penalizeOracle a st = inr (tt, st', evs).
Proof.
  intros Hb.
  destruct (_penalizeOracle a st) as [e|[[[] st'] evs]] eqn:H; [|by eauto].
  exfalso. osym H; autorewrite with oracle in *; repeat case_decide;
    simpl in *; ozb; lia.
Qed.

(** Once every hard guard has passed and [_validateSensorData] answers
    [false], [updateSensorData] is [emit DataValidationFailed; _penalizeOracle]. *)
Lemma soft_path st c s o k t h :
  OracleNode.isActive (node_at st (sender c)) = true ->
  paused st = false -> 0 < s ->
  0 <= SensorData.timestamp (latest_at st s) ->
  SensorData.timestamp (latest_at st s) + UPDATE_COOLDOWN <= now c <= UINT_MAX ->
  MIN_CONFIDENCE <= k -> processed st h = false -> (0 < String.length t)%nat ->
  _validateSensorData c s o k t st = inr (false, st, []) ->
  updateSensorData c s o k t h st =
    (emit (DataValidationFailed (sender c) s "Validation échouée");;
     _penalizeOracle (sender c)) st.
Proof.
  intros HA HP Hs Ht0 Ht Hk Hh Hlen Hv.
  unfold updateSensorData, onlyAuthorizedOracle, whenNotPaused, validSpotId,
    cooldownPassed.
  cbv beta iota zeta delta [bind get require checked emit ret negb andb orb].
  repeat match goal with |- context [if ?b then _ else _] =>
    let E := fresh "E" in destruct b eqn:E end;
    ozb; unfold UPDATE_COOLDOWN, MIN_CONFIDENCE in *; try lia; try congruence.
  rewrite Hv. cbv beta iota zeta.
  destruct (_penalizeOracle (sender c) st) as [e|[[u st'] evs]]; reflexivity.
Qed.

Lemma soft_rejection_of st c s o k t h :
  reachable st ->
  OracleNode.isActive (node_at st (sender c)) = true ->
  paused st = false -> 0 < s ->
  0 <= SensorData.timestamp (latest_at st s) ->
  SensorData.timestamp (latest_at st s) + UPDATE_COOLDOWN <= now c <= UINT_MAX ->
  MIN_CONFIDENCE <= k -> processed st h = false -> (0 < String.length t)%nat ->
  _validateSensorData c s o k t st = inr (false, st, []) ->
  soft_rejection c s st (updateSensorData c s o k t h st).
Proof.
  intros Hr HA HP Hs Ht0 Ht Hk Hh Hlen Hv.
  rewrite (soft_path st c s o k t h) by assumption.
  destruct (penalize_ok (sender c) st) as (st' & evs & Hp).
  { pose proof (reachable_reputation_bound st Hr (sender c)). unfold UINT_MAX. lia. }
  exists st', evs. destruct (penalize_frame _ _ _ _ _ Hp) as (H1 & H2 & H3).
  split; [|auto].
  unfold bind, emit. rewrite Hp. reflexivity.
Qed.

(** The validation verdicts used by the claims. *)
Lemma validate_flip c s o k t st :
  0 < SensorData.timestamp (latest_at st s) ->
  SensorData.isOccupied (latest_at st s) <> o ->
  MIN_CONFIDENCE <= k < 80 ->
  _validateSensorData c s o k t st = inr (false, st, []).
Proof.
  intros Ht Ho Hk. unfold _validateSensorData.
  cbv beta iota zeta delta [bind get require checked emit ret negb andb orb].
  repeat match goal with |- context [if ?b then _ else _] =>
    let E := fresh "E" in destruct b eqn:E end;
    ozb; unfold MIN_CONFIDENCE in *; try lia; try reflexivity.
  all: match goal with E : Bool.eqb _ _ = true |- _ =>
         apply Bool.eqb_prop in E; congruence end.
Qed.

Lemma validate_high c s o k t st :
  100 < k -> _validateSensorData c s o k t st = inr (false, st, []).
Proof.
  intros Hk. unfold _validateSensorData.
  cbv beta iota zeta delta [bind get require checked emit ret negb andb orb].
  repeat match goal with |- context [if ?b then _ else _] =>
    let E := fresh "E" in destruct b eqn:E end;
    ozb; unfold MIN_CONFIDENCE in *; try lia; reflexivity.
Qed.

(** The processed-hash set only grows. *)
Lemma step_processed_mono st c call h :
  processed st h = true -> processed (step c call st) h = true.
Proof.
  intros Hh. unfold step, exec.
  destruct (dispatch c call st) as [e|[[u st'] evs]] eqn:H; [exact Hh|].
  destruct call; simpl in H; osym H.
  all: injection H as _ <- _; autorewrite with oracle_data in *;
    repeat case_decide; auto.
Qed.

(** A successful call either records its hash or stores no sensor data. *)
Lemma update_records_or_frames c s o k t h st u st' evs :
  updateSensorData c s o k t h st = inr (u, st', evs) ->
  processed st h = false /\
  (processed st' h = true \/
   (latestSensorData st' = latestSensorData st /\
    sensorHistory st' = sensorHistory st /\
    processedDataHashes st' = processedDataHashes st)).
Proof.
  intros H. osym H.
  all: injection H as _ <- _; ozb;
    (split; [first [assumption | reflexivity]|]);
    try (left; autorewrite with oracle_data; repeat case_decide; congruence);
    right; repeat split.
Qed.

Lemma reward_effect a st u st' evs :
  _rewardOracle a st = inr (u, st', evs) ->
  0 <= OracleNode.reputation (node_at st a) <= 1000 ->
  OracleNode.reputation (node_at st' a)
  = Z.min (OracleNode.reputation (node_at st a) + 1) 1000.
Proof.
  intros H Hb. osym H.
  all: injection H as _ <- _; autorewrite with oracle in *;
    repeat case_decide; try congruence; simpl in *; ozb; lia.
Qed.

Lemma penalize_effect a st u st' evs :
  _penalizeOracle a st = inr (u, st', evs) ->
  OracleNode.reputation (node_at st' a)
  = (if 10 <? OracleNode.reputation (node_at st a)
     then OracleNode.reputation (node_at st a) - 10
     else OracleNode.reputation (node_at st a)) /\
  (OracleNode.reputation (node_at st' a) < 100 ->
   OracleNode.isActive (node_at st' a) = false /\
   In (OracleNodeUpdated a false (OracleNode.reputation (node_at st' a))) evs).
Proof.
  intros H. osym H.
  all: injection H as _ <- <-; autorewrite with oracle in *;
    repeat case_decide; try congruence; simpl in *; ozb;
    destruct (10 <? OracleNode.reputation (node_at st a)) eqn:Hc; ozb;
    (split; [lia|]); intros Hlt; try lia; split; auto; simpl; auto.
Qed.

Lemma inactive_rejected st txs c s o k t h :
  OracleNode.isActive (node_at st (sender c)) = false ->
  (forall tx n, In tx txs -> snd tx <> AddOracleNode (sender c) n) ->
  updateSensorData c s o k t h (run txs st) = inl OracleNonAutorise.
Proof.
  revert st. induction txs as [|[c0 call] txs IH]; intros st Hin Hnot; simpl.
  - unfold updateSensorData, onlyAuthorizedOracle.
    cbv beta iota zeta delta [bind get require]. rewrite Hin. reflexivity.
  - apply IH.
    + apply step_keeps_inactive; [exact Hin|].
      intros n. exact (Hnot (c0, call) n (or_introl eq_refl)).
    + intros tx n Htx. apply Hnot. right. exact Htx.
Qed.

(** Evaluation of concrete side conditions. *)
Ltac zdec :=
  repeat split;
  lazymatch goal with
  | |- (_ <= _)%Z => apply Z.leb_le
  | |- (_ < _)%Z => apply Z.ltb_lt
  | |- (_ < _)%nat => apply Nat.ltb_lt
  | _ => idtac
  end; vm_compute; reflexivity.

Ltac reachable_tac :=
  repeat (apply reachable_step || apply reachable_init);
  unfold wf_ctx, wf_call, addr, uint; simpl; zdec.

(** ** Claim C5: in every reachable state each node's reputation lies in
    [0, 1000]; a reward adds 1 capped at 1000; a penalty subtracts 10 only
    from a reputation above 10; a penalty leaving the reputation below 100
    deactivates the node (and logs it); from then on every
    [updateSensorData] of that node reverts with [OracleNonAutorise], after
    any sequence of transactions (rewards, penalties, owner overrides of the
    reputation, ...) that does not re-register it with [addOracleNode]. *)
Theorem reputation_bounded_and_deactivation :
  (forall st, reachable st ->
     forall a, 0 <= OracleNode.reputation (node_at st a) <= 1000) /\
  (forall a st u st' evs, _rewardOracle a st = inr (u, st', evs) ->
     0 <= OracleNode.reputation (node_at st a) <= 1000 ->
     OracleNode.reputation (node_at st' a)
     = Z.min (OracleNode.reputation (node_at st a) + 1) 1000) /\
  (forall a st u st' evs, _penalizeOracle a st = inr (u, st', evs) ->
     OracleNode.reputation (node_at st' a)
     = (if 10 <? OracleNode.reputation (node_at st a)
        then OracleNode.reputation (node_at st a) - 10
        else OracleNode.reputation (node_at st a)) /\
     (OracleNode.reputation (node_at st' a) < 100 ->
      OracleNode.isActive (node_at st' a) = false /\
      In (OracleNodeUpdated a false (OracleNode.reputation (node_at st' a))) evs)) /\
  (forall st txs c s o k t h,
     OracleNode.isActive (node_at st (sender c)) = false ->
     (forall tx n, In tx txs -> snd tx <> AddOracleNode (sender c) n) ->
     updateSensorData c s o k t h (run txs st) = inl OracleNonAutorise).
Proof.
  split; [exact reachable_reputation_bound|].
  split; [exact reward_effect|].
  split; [exact penalize_effect|].
  exact inactive_rejected.
Qed.

Lemma reputation_bounded_and_deactivation_witness :
  let st := st_low in
  let st' := exec (_penalizeOracle 7) st in
  let txs := [(mkCtx 1 30, UpdateOracleReputation 7 900)] in
  reachable st /\
  0 <= OracleNode.reputation (node_at st 7) <= 1000 /\
  _penalizeOracle 7 st = inr (tt, st', [OracleNodeUpdated 7 false 95]) /\
  OracleNode.reputation (node_at st' 7) = 95 /\
  OracleNode.isActive (node_at st' 7) = false /\
  updateSensorData (mkCtx 7 3000) 3 false 90 "ir" 5 (run txs st')
  = inl OracleNonAutorise.
Proof.
  intros st st' txs.
  destruct reputation_bounded_and_deactivation as (H1 & _ & H3 & H4).
  assert (Hr : reachable st) by (unfold st, st_low, st_added; reachable_tac).
  assert (Hp : _penalizeOracle 7 st = inr (tt, st', [OracleNodeUpdated 7 false 95]))
    by (vm_compute; reflexivity).
  destruct (H3 7 st tt st' _ Hp) as [Hrep Hdeact].
  assert (Hrep' : OracleNode.reputation (node_at st' 7) = 95)
    by (rewrite Hrep; vm_compute; reflexivity).
  assert (Hlt : OracleNode.reputation (node_at st' 7) < 100) by (rewrite Hrep'; lia).
  destruct (Hdeact Hlt) as [Hin _].
  split; [exact Hr|]. split; [exact (H1 st Hr 7)|].
  split; [exact Hp|]. split; [exact Hrep'|]. split; [exact Hin|].
  apply (H4 st' txs (mkCtx 7 3000)); [exact Hin|].
  intros tx n Htx. simpl in Htx. destruct Htx as [<-|[]]. discriminate.
Defined.

(** ** Claim C6: the processed-hash set only grows; every [updateSensorData]
    carrying an already processed hash (from any node, for any spot)
    reverts, and when it passes the checks that come before the replay check
    (active node, not paused, spot id > 0, cooldown elapsed, confidence >=
    70) the reason is the replay error [DonneesDejaTraitees]; a successful
    call carried an unprocessed hash and either records it or stores no
    sensor data (a soft rejection), so at most one submission of a hash is
    accepted. *)
Theorem replay_protection :
  (forall st c call h, processed st h = true -> processed (step c call st) h = true) /\
  (forall st c s o k t h, processed st h = true ->
     exists e, updateSensorData c s o k t h st = inl e) /\
  (forall st c s o k t h, processed st h = true ->
     OracleNode.isActive (node_at st (sender c)) = true ->
     paused st = false -> 0 < s ->
     0 <= SensorData.timestamp (latest_at st s) ->
     SensorData.timestamp (latest_at st s) + UPDATE_COOLDOWN <= now c <= UINT_MAX ->
     MIN_CONFIDENCE <= k ->
     updateSensorData c s o k t h st = inl DonneesDejaTraitees) /\
  (forall c s o k t h st u st' evs,
     updateSensorData c s o k t h st = inr (u, st', evs) ->
     processed st h = false /\
     (processed st' h = true \/
      (latestSensorData st' = latestSensorData st /\
       sensorHistory st' = sensorHistory st /\
       processedDataHashes st' = processedDataHashes st))).
Proof.
  split; [exact step_processed_mono|].
  split.
  { intros st c s o k t h Hh.
    destruct (updateSensorData c s o k t h st) as [e|[[u st'] evs]] eqn:H;
      [by eauto|].
    apply update_records_or_frames in H. destruct H as [H _]. congruence. }
  split; [|exact update_records_or_frames].
  intros st c s o k t h Hh HA HP Hs Ht0 Ht Hk.
  unfold updateSensorData, onlyAuthorizedOracle, whenNotPaused, validSpotId,
    cooldownPassed.
  cbv beta iota zeta delta [bind get require checked emit ret negb andb orb].
  repeat match goal with |- context [if ?b then _ else _] =>
    let E := fresh "E" in destruct b eqn:E end;
    ozb; unfold UPDATE_COOLDOWN, MIN_CONFIDENCE in *; try lia; try congruence;
    reflexivity.
Qed.

Lemma replay_protection_witness :
  processed st_one 1 = true /\
  updateSensorData (mkCtx 7 2000) 4 false 90 "ir" 1 st_one = inl DonneesDejaTraitees.
Proof.
  destruct replay_protection as (_ & _ & H3 & _).
  assert (Hh : processed st_one 1 = true) by (vm_compute; reflexivity).
  split; [exact Hh|].
  apply (H3 st_one (mkCtx 7 2000) 4 false 90 "ir" 1 Hh); zdec.
Defined.

(** ** Claim C7: when every hard guard passes, a prior reading of the spot
    exists, its occupancy differs from the submitted one and the confidence
    is below 80, [updateSensorData] succeeds as a soft rejection: it logs
    [DataValidationFailed], applies [_penalizeOracle] to the sender, and
    leaves the latest data, the history and the processed hashes unchanged. *)
Theorem soft_rejection_on_flip st c s o k t h :
  reachable st ->
  OracleNode.isActive (node_at st (sender c)) = true ->
  paused st = false -> 0 < s ->
  SensorData.timestamp (latest_at st s) + UPDATE_COOLDOWN <= now c <= UINT_MAX ->
  MIN_CONFIDENCE <= k -> processed st h = false -> (0 < String.length t)%nat ->
  0 < SensorData.timestamp (latest_at st s) ->
  SensorData.isOccupied (latest_at st s) <> o -> k < 80 ->
  soft_rejection c s st (updateSensorData c s o k t h st).
Proof.
  intros Hr HA HP Hs Ht Hk Hh Hlen Hprior Hflip Hk80.
  apply soft_rejection_of; try assumption; [lia|].
  apply validate_flip; [exact Hprior|exact Hflip|lia].
Qed.

Lemma soft_rejection_on_flip_witness :
  reachable st_one /\
  soft_rejection (mkCtx 7 2000) 3 st_one
    (updateSensorData (mkCtx 7 2000) 3 true 75 "ir" 2 st_one).
Proof.
  assert (Hr : reachable st_one) by (unfold st_one, st_added; reachable_tac).
  split; [exact Hr|].
  apply (soft_rejection_on_flip st_one (mkCtx 7 2000) 3 true 75 "ir" 2 Hr);
    try zdec.
  intros Heq. vm_compute in Heq. discriminate Heq.
Defined.

(** ** Claim C8 (counterexample): confidence 150 passes the hard guards:
    the call succeeds, logs [DataValidationFailed], penalizes node 7
    (500 -> 490) and stores nothing. *)
Lemma confidence_above_100_is_soft :
  let st' := exec (_penalizeOracle 7) st_added in
  updateSensorData (mkCtx 7 100) 3 false 150 "ir" 1 st_added
  = inr (tt, st', [DataValidationFailed 7 3 "Validation échouée"]) /\
  OracleNode.reputation (node_at st' 7) = 490 /\
  latestSensorData st' = latestSensorData st_added.
Proof. split; [|split]; vm_compute; reflexivity. Qed.

(** ** Claim C8 (amended): once the earlier guards pass (active node, not
    paused, spot id > 0, cooldown elapsed), a confidence below 70 is a hard
    revert with [ConfianceInsuffisante] (the storage stays unchanged), while a
    confidence above 100 is a soft rejection: success, [DataValidationFailed],
    the reporter penalized, no sensor data stored. *)
Theorem confidence_guard st c s o k t h :
  OracleNode.isActive (node_at st (sender c)) = true ->
  paused st = false -> 0 < s ->
  0 <= SensorData.timestamp (latest_at st s) ->
  SensorData.timestamp (latest_at st s) + UPDATE_COOLDOWN <= now c <= UINT_MAX ->
  (k < MIN_CONFIDENCE ->
   updateSensorData c s o k t h st = inl ConfianceInsuffisante) /\
  (100 < k -> reachable st -> processed st h = false ->
   (0 < String.length t)%nat ->
   soft_rejection c s st (updateSensorData c s o k t h st)).
Proof.
  intros HA HP Hs Ht0 Ht. split.
  - intros Hk.
    unfold updateSensorData, onlyAuthorizedOracle, whenNotPaused, validSpotId,
      cooldownPassed.
    cbv beta iota zeta delta [bind get require checked emit ret negb andb orb].
    repeat match goal with |- context [if ?b then _ else _] =>
      let E := fresh "E" in destruct b eqn:E end;
      ozb; unfold UPDATE_COOLDOWN, MIN_CONFIDENCE in *; try lia; try congruence;
      reflexivity.
  - intros Hk Hr Hh Hlen.
    apply soft_rejection_of; try assumption; [unfold MIN_CONFIDENCE; lia|].
    apply validate_high. exact Hk.
Qed.

Lemma confidence_guard_witness :
  updateSensorData (mkCtx 7 100) 3 false 50 "ir" 1 st_added = inl ConfianceInsuffisante /\
  soft_rejection (mkCtx 7 100) 3 st_added
    (updateSensorData (mkCtx 7 100) 3 false 150 "ir" 1 st_added).
Proof.
  assert (Hr : reachable st_added) by (unfold st_added; reachable_tac).
  assert (HA : OracleNode.isActive (node_at st_added (sender (mkCtx 7 100))) = true)
    by (vm_compute; reflexivity).
  assert (HP : paused st_added = false) by (vm_compute; reflexivity).
  assert (Ht0 : 0 <= SensorData.timestamp (latest_at st_added 3)) by zdec.
  assert (Ht : SensorData.timestamp (latest_at st_added 3) + UPDATE_COOLDOWN
               <= now (mkCtx 7 100) <= UINT_MAX) by zdec.
  split.
  - apply (proj1 (confidence_guard st_added (mkCtx 7 100) 3 false 50 "ir" 1
                    HA HP ltac:(lia) Ht0 Ht)).
    unfold MIN_CONFIDENCE; lia.
  - apply (proj2 (confidence_guard st_added (mkCtx 7 100) 3 false 150 "ir" 1
                    HA HP ltac:(lia) Ht0 Ht)); [lia|exact Hr|zdec|zdec].
Defined.

(** ** Claim C9 (failing input): node 7 has filled the history of spot 3 with
    100 readings (hashes 1..100); its 101st reading (hash 555) is accepted and
    becomes the latest reading, but the history afterwards is the old one
    with its first entry overwritten by the second: the new reading is not
    in it and the second-oldest reading appears twice. *)
Theorem full_history_drops_new_reading :
  let h := history_at st_full 3 in
  let st' := exec (updateSensorData ctx101 3 true 95 "ir" 555) st_full in
  updateSensorData ctx101 3 true 95 "ir" 555 st_full
  = inr (tt, st', [SensorDataUpdated 3 true 95 7 "ir"]) /\
  length h = 100%nat /\
  latest_at st' 3 = reading101 /\
  length (history_at st' 3) = 100%nat /\
  existsb (fun d => SensorData.dataHash d =? 555) (history_at st' 3) = false /\
  history_at st' 3 = nth 1 h SensorData.zero :: tail h /\
  map SensorData.dataHash (take 3 (history_at st' 3)) = [2; 2; 3].
Proof.
  cbv zeta. repeat match goal with |- _ /\ _ => split end;
    vm_compute; reflexivity.
Qed.
End ParkingOracleProofs.

Module ParkingSystemExtra.
Import ParkingSystem Accounting ParkingSystemProofs ParkingSystemViews
  ParkingSystemLedger.

Ltac psym H :=
  unfold createParkingSpot, reserveSpot, startReservation, completeReservation,
    cancelReservation, updatePlatformFee, updateOracle, withdrawPlatformEarnings,
    pause, unpause, transferOwnership, renounceOwnership, onlyOwner,
    whenNotPaused, whenPaused, onlyOracle, spotExistsModifier, validReservation,
    set_spot, set_reservation, set_userReservations, set_spotExists,
    set_nextSpotId, set_nextReservationId, set_platformFeePercentage,
    set_totalPlatformEarnings, set_oracleAddress, set_owner, set_paused in H;
  sym H.

Lemma step_keeps_paused st c call :
  paused st = true -> call <> Unpause -> paused (step c call st) = true.
Proof.
  intros Hp Hn. unfold step, exec.
  destruct (dispatch c call st) as [e|[[u st'] evs]] eqn:H; [exact Hp|].
  destruct call; simpl in H; psym H.
  all: try (rewrite Hp in *; discriminate); try congruence.
  all: injection H as _ <- _; simpl; assumption.
Qed.

(** While the contract is paused and no [unpause] is sent, it stays paused
    and every [reserveSpot] reverts with [EnforcedPause]. *)
Theorem pause_freezes_bookings st txs :
  paused st = true ->
  (forall tx, In tx txs -> snd tx <> Unpause) ->
  paused (run txs st) = true /\
  forall c s a b, reserveSpot c s a b (run txs st) = inl EnforcedPause.
Proof.
  intros Hp Htx.
  assert (Hr : paused (run txs st) = true).
  { revert st Hp. induction txs as [|[c call] txs IH]; intros st Hp; simpl; [exact Hp|].
    apply IH; [intros tx Hin; apply Htx; right; exact Hin|].
    apply step_keeps_paused; [exact Hp|]. exact (Htx (c, call) (or_introl eq_refl)). }
  split; [exact Hr|]. intros c s a b.
  unfold reserveSpot, whenNotPaused.
  cbv beta iota zeta delta [bind get require]. rewrite Hr. reflexivity.
Qed.

Lemma pause_freezes_bookings_witness :
  let st := step (mkCtx 1 10 0) Pause (init 1 2) in
  let txs := [(mkCtx 1 20 0, CreateParkingSpot "A1" 3600);
              (mkCtx 1 30 0, UpdatePlatformFee 5)] in
  paused st = true /\
  reserveSpot (mkCtx 5 40 7200) 1 4000 11200 (run txs st) = inl EnforcedPause.
Proof.
  intros st txs.
  assert (Hp : paused st = true) by (vm_compute; reflexivity).
  split; [exact Hp|].
  apply (pause_freezes_bookings st txs Hp).
  intros tx Htx. simpl in Htx.
  destruct Htx as [<-|[<-|[]]]; discriminate.
Defined.



Lemma reservation_at_insert_ne (m : gmap Z Reservation.t) i x k :
  i <> k -> default Reservation.zero (<[i := x]> m !! k) = default Reservation.zero (m !! k).
Proof. intros Hik. by rewrite lookup_insert_ne. Qed.

Lemma non_active_stored st w k :
  inv st w -> Reservation.status (reservation_at st k) <> Active ->
  k < nextReservationId st.
Proof.
  intros Hinv Hs. unfold reservation_at in Hs.
  destruct (reservations st !! k) eqn:Hk; [|simpl in Hs; congruence].
  exact (inv_res_dom _ _ Hinv _ _ Hk).
Qed.

(** A Completed or Cancelled reservation is never written again. *)
Lemma step_keeps_final st w c call k :
  inv st w -> Reservation.status (reservation_at st k) <> Active ->
  reservation_at (step c call st) k = reservation_at st k.
Proof.
  intros Hinv Hs. pose proof (non_active_stored st w k Hinv Hs) as Hk.
  unfold step, exec.
  destruct (dispatch c call st) as [e|[[u st'] evs]] eqn:H; [reflexivity|].
  destruct call; simpl in H; psym H.
  all: injection H as _ <- _; unfold reservation_at; simpl; try reflexivity.
  all: rewrite reservation_at_insert_ne; [reflexivity|].
  all: intros Heq; subst k; try lia.
  all: match goal with E : status_eqb _ Active = true |- _ =>
      apply status_eqb_eq in E; congruence end.
Qed.

Lemma step_no_expired st c call :
  (forall k, Reservation.status (reservation_at st k) <> Expired) ->
  forall k, Reservation.status (reservation_at (step c call st) k) <> Expired.
Proof.
  intros Hne. unfold step, exec.
  destruct (dispatch c call st) as [e|[[u st'] evs]] eqn:H; [exact Hne|].
  destruct call; simpl in H; psym H.
  all: injection H as _ <- _; intros k; unfold reservation_at in *; simpl;
    try apply Hne.
  all: rewrite lookup_insert; case_decide; simpl;
    first [discriminate | apply Hne].
Qed.

Lemma inv_reach_run st w txs :
  reach st w -> exists w', reach (run txs st) w'.
Proof.
  revert st w. induction txs as [|[c call] txs IH]; intros st w Hr; simpl.
  - by exists w.
  - eapply IH. apply reach_step. exact Hr.
Qed.

(** No reachable reservation is ever Expired, and a Completed or Cancelled
    reservation is never changed again by any sequence of transactions. *)
Theorem reservation_lifecycle st :
  reachable st ->
  (forall k, Reservation.status (reservation_at st k) <> Expired) /\
  (forall k txs, Reservation.status (reservation_at st k) <> Active ->
     reservation_at (run txs st) k = reservation_at st k).
Proof.
  intros [w Hr]. split.
  - clear -Hr. induction Hr as [d o|st w c call _ IH].
    + intros k. unfold reservation_at. simpl. rewrite lookup_empty. simpl. discriminate.
    + by apply step_no_expired.
  - intros k txs. revert st w Hr. induction txs as [|[c call] txs IH];
      intros st w Hr Hs; simpl; [reflexivity|].
    pose proof (step_keeps_final st w c call k (reach_inv _ _ Hr) Hs) as Heq.
    rewrite (IH (step c call st) (w + withdrawn call st (step c call st))).
    + exact Heq.
    + apply reach_step. exact Hr.
    + rewrite Heq. exact Hs.
Qed.

Lemma reservation_lifecycle_witness :
  let st := run trace_life (init 1 2) in
  let txs := [(mkCtx 2 9900 0, CompleteReservation 1);
              (mkCtx 5 9900 0, CancelReservation 1)] in
  reachable st /\ Reservation.status (reservation_at st 1) <> Active /\
  reservation_at (run txs st) 1 = reservation_at st 1.
Proof.
  cbv zeta.
  assert (H : reachable (run trace_life (init 1 2))).
  { exists 540. unfold trace_life, run. reach_trace. }
  split; [exact H|].
  assert (Hs : Reservation.status (reservation_at (run trace_life (init 1 2)) 1) <> Active)
    by (vm_compute; discriminate).
  split; [exact Hs|].
  exact (proj2 (reservation_lifecycle _ H) 1 _ Hs).
Defined.

(** Shape of one transaction's effect on the reservation index. *)
Lemma step_users st c call :
  let st' := step c call st in
  (userReservations st' = userReservations st /\
   nextReservationId st' = nextReservationId st /\
   forall id, Reservation.user (reservation_at st' id)
              = Reservation.user (reservation_at st id)) \/
  (exists r, nextReservationId st' = nextReservationId st + 1 /\
   reservations st' = <[nextReservationId st := r]> (reservations st) /\
   Reservation.user r = sender c /\
   userReservations st' = <[sender c := default [] (userReservations st !! sender c)
                            ++ [nextReservationId st]]> (userReservations st)).
Proof.
  cbv zeta. unfold step, exec.
  destruct (dispatch c call st) as [e|[[u st'] evs]] eqn:H;
    [left; auto|].
  destruct call; simpl in H; psym H.
  all: injection H as _ <- _; simpl.
  all: try (right; eexists; split; [reflexivity|]; split; [reflexivity|];
            split; reflexivity).
  all: left; split; [reflexivity|]; split; [reflexivity|].
  all: intros id; unfold reservation_at; simpl; try reflexivity.
  all: rewrite lookup_insert; case_decide; subst; reflexivity.
Qed.

Definition user_index (st : State) : Prop :=
  forall u, StronglySorted Z.lt (default [] (userReservations st !! u)) /\
  forall id, In id (default [] (userReservations st !! u)) <->
             1 <= id < nextReservationId st /\
             Reservation.user (reservation_at st id) = u.

Lemma StronglySorted_snoc (l : list Z) y :
  StronglySorted Z.lt l -> (forall x, In x l -> x < y) ->
  StronglySorted Z.lt (l ++ [y]).
Proof.
  induction l as [|a l IH]; intros Hs Hy; simpl.
  - repeat constructor.
  - inversion Hs as [|? ? Hl Ha]; subst. constructor.
    + apply IH; [exact Hl|]. intros x Hx. apply Hy. by right.
    + apply Forall_app; split; [exact Ha|]. constructor; [apply Hy; by left|constructor].
Qed.

Lemma user_index_step st w c call :
  inv st w -> user_index st -> user_index (step c call st).
Proof.
  intros Hinv Hu. pose proof (inv_next_res _ _ Hinv) as H1.
  destruct (step_users st c call) as [(Hl & Hn & Hr)|(r & Hn & Hr & Hru & Hl)];
    intros u; rewrite Hl.
  - rewrite Hn. split; [apply Hu|]. intros id. rewrite Hr. apply Hu.
  - rewrite lookup_insert. destruct (Hu u) as [Hs Hi].
    assert (Hat : forall id, reservation_at (step c call st) id
                  = if decide (nextReservationId st = id) then r
                    else reservation_at st id).
    { intros id. unfold reservation_at. rewrite Hr, lookup_insert.
      by case_decide. }
    case_decide as Hsu; [rewrite <- Hsu in Hs, Hi|]; simpl.
    + split.
      * apply StronglySorted_snoc; [exact Hs|].
        intros x Hx. apply Hi in Hx. lia.
      * intros id. rewrite in_app_iff, Hi, Hat, Hn. simpl.
        case_decide; subst; split; intros; try lia.
    + split; [exact Hs|]. intros id. rewrite Hi, Hat, Hn.
      case_decide; subst; split; intros; try lia.
Qed.

(** [getUserReservations(u)] lists, in increasing order, exactly the
    reservations made by [u]. *)
Theorem user_reservations_index st u :
  reachable st ->
  exists l, ParkingSystemViews.getUserReservations u st = inr (l, st, []) /\
  StronglySorted Z.lt l /\
  forall id, In id l <-> 1 <= id < nextReservationId st /\
                         Reservation.user (reservation_at st id) = u.
Proof.
  intros [w Hr].
  assert (Hu : user_index st).
  { clear u. induction Hr as [d o|st w c call Hr IH].
    - intros u. simpl. rewrite lookup_empty. simpl.
      split; [constructor|]. intros id. split; [intros []|].
      intros [Hb _]. lia.
    - exact (user_index_step st w c call (reach_inv _ _ Hr) IH). }
  exists (default [] (userReservations st !! u)). split; [reflexivity|]. apply Hu.
Qed.

Lemma user_reservations_index_witness :
  reachable (run trace_life (init 1 2)) /\
  exists l, ParkingSystemViews.getUserReservations 6 (run trace_life (init 1 2))
            = inr (l, run trace_life (init 1 2), []) /\
  StronglySorted Z.lt l /\
  forall id, In id l <-> 1 <= id < nextReservationId (run trace_life (init 1 2)) /\
     Reservation.user (reservation_at (run trace_life (init 1 2)) id) = 6.
Proof.
  assert (H : reachable (run trace_life (init 1 2))).
  { exists 540. unfold trace_life, run. reach_trace. }
  split; [exact H|]. exact (user_reservations_index _ 6 H).
Defined.

(** One transaction keeps the terms of every spot, except the one that
    [createParkingSpot] writes at [nextSpotId]. *)
Lemma step_spot_terms st c call k :
  let st' := step c call st in
  (spot_terms (spot_at st' k) = spot_terms (spot_at st k) /\
   spot_exists st' k = spot_exists st k /\ nextSpotId st <= nextSpotId st') \/
  (exists l r, call = CreateParkingSpot l r /\ k = nextSpotId st /\ 0 < r /\
   nextSpotId st' = nextSpotId st + 1 /\
   spot_at st' k = Spot.mk k l r true false 0 0 0 0 /\ spot_exists st' k = true).
Proof.
  cbv zeta. unfold step, exec.
  destruct (dispatch c call st) as [e|[[u st'] evs]] eqn:H;
    [left; auto with lia|].
  destruct call; simpl in H; psym H.
  all: injection H as _ <- _; simpl.
  all: unfold spot_at, spot_exists, spot_terms in *; simpl.
  all: try (left; split; [reflexivity|]; split; [reflexivity|]; lia).
  all: try (left; rewrite lookup_insert; case_decide; subst; simpl;
            (split; [first [reflexivity | f_equal; symmetry; assumption]|]);
            (split; [reflexivity|]); lia).
  destruct (decide (k = nextSpotId st)) as [->|Hk].
  - right. do 2 eexists. split; [reflexivity|]. split; [reflexivity|].
    rewrite !lookup_insert_eq. zb. split; [lia|]. split; [reflexivity|].
    split; reflexivity.
  - left. rewrite !lookup_insert_ne by congruence. split; [reflexivity|].
    split; [reflexivity|]. lia.
Qed.

Lemma reachable_step st c call : reachable st -> reachable (step c call st).
Proof. intros [w Hr]. eexists. apply reach_step. exact Hr. Qed.

(** Once created, a spot exists for ever and keeps its id, location, rate
    and active flag. *)
Theorem spot_terms_fixed st k txs :
  reachable st -> spot_exists st k = true ->
  spot_exists (run txs st) k = true /\
  spot_terms (spot_at (run txs st) k) = spot_terms (spot_at st k).
Proof.
  revert st. induction txs as [|[c call] txs IH]; intros st Hr Hk; simpl;
    [auto|].
  destruct Hr as [w Hw].
  assert (Hlt : k < nextSpotId st) by exact (inv_exists _ _ (reach_inv _ _ Hw) k Hk).
  destruct (step_spot_terms st c call k) as [(Ht & He & _)|(l & r & _ & -> & _)];
    [|lia].
  rewrite <- Ht. apply IH.
  - apply reachable_step. by exists w.
  - by rewrite He.
Qed.

Lemma spot_terms_fixed_witness :
  reachable (run trace_cancel (init 1 2)) /\
  spot_exists (run trace_cancel (init 1 2)) 1 = true /\
  spot_exists (run trace_life (run trace_cancel (init 1 2))) 1 = true /\
  spot_terms (spot_at (run trace_life (run trace_cancel (init 1 2))) 1)
  = spot_terms (spot_at (run trace_cancel (init 1 2)) 1).
Proof.
  assert (H : reachable (run trace_cancel (init 1 2))).
  { exists 0. apply trace_cancel_reach. }
  assert (Hk : spot_exists (run trace_cancel (init 1 2)) 1 = true)
    by (vm_compute; reflexivity).
  split; [exact H|]. split; [exact Hk|].
  exact (spot_terms_fixed _ 1 trace_life H Hk).
Defined.

Definition spot_shape (st : State) : Prop :=
  forall k, spot_exists st k = true ->
  Spot.spotId (spot_at st k) = k /\ Spot.isActive (spot_at st k) = true /\
  0 < Spot.hourlyRate (spot_at st k).

Lemma spot_shape_step st c call :
  spot_shape st -> spot_shape (step c call st).
Proof.
  intros Hs k Hk.
  destruct (step_spot_terms st c call k) as [(Ht & He & _)|(l & r & _ & _ & Hr & _ & Hsp & _)].
  - unfold spot_terms in Ht. injection Ht as H1 _ H3 H4.
    rewrite H1, H3, H4. apply Hs. by rewrite <- He.
  - rewrite Hsp. simpl. auto.
Qed.

(** Every existing spot is active, has a positive rate and is stored under
    its own id; hence [reserveSpot] never reverts with "Place de parking
    inactive". *)
Theorem spots_always_active st :
  reachable st ->
  (forall k, spot_exists st k = true ->
     Spot.spotId (spot_at st k) = k /\ Spot.isActive (spot_at st k) = true /\
     0 < Spot.hourlyRate (spot_at st k)) /\
  (forall c s a b, reserveSpot c s a b st <> inl PlaceInactive).
Proof.
  intros [w Hr].
  assert (Hs : spot_shape st).
  { clear -Hr. induction Hr as [d o|st w c call _ IH].
    - intros k Hk. unfold spot_exists in Hk. simpl in Hk.
      by rewrite lookup_empty in Hk.
    - by apply spot_shape_step. }
  split; [exact Hs|].
  intros c s a b H. unfold reserveSpot, whenNotPaused, spotExistsModifier in H.
  sym H.
  destruct (Hs s) as (_ & Ha & _); [assumption|congruence].
Qed.

Lemma spots_always_active_witness :
  reachable (run trace_cancel (init 1 2)) /\
  (forall k, spot_exists (run trace_cancel (init 1 2)) k = true ->
     Spot.spotId (spot_at (run trace_cancel (init 1 2)) k) = k /\
     Spot.isActive (spot_at (run trace_cancel (init 1 2)) k) = true /\
     0 < Spot.hourlyRate (spot_at (run trace_cancel (init 1 2)) k)) /\
  (forall c s a b, reserveSpot c s a b (run trace_cancel (init 1 2))
                   <> inl PlaceInactive).
Proof.
  assert (H : reachable (run trace_cancel (init 1 2))).
  { exists 0. apply trace_cancel_reach. }
  split; [exact H|]. exact (spots_always_active _ H).
Defined.



Lemma getReservation_at st id :
  id < nextReservationId st ->
  ParkingSystemViews.getReservation id st = inr (reservation_at st id, st, []).
Proof.
  intros H. unfold ParkingSystemViews.getReservation, validReservation.
  cbv beta iota zeta delta [bind get require ret].
  by rewrite (proj2 (Z.ltb_lt _ _) H).
Qed.

(** A successful [reserveSpot] met all its guards; it stores the
    reservation under the old [nextReservationId] (returned by
    [getReservation]), appends that id to the caller's list, moves the
    spot's horizon to [_endTime] and refunds any excess payment. *)
Theorem reserve_then_get c s a b st u st' evs :
  reserveSpot c s a b st = inr (u, st', evs) ->
  let id := nextReservationId st in
  let sp := spot_at st s in
  let cost := (b - a) * Spot.hourlyRate sp / 3600 in
  paused st = false /\ spot_exists st s = true /\
  Spot.isOccupied sp = false /\ now c <= a /\
  MIN_RESERVATION_TIME <= b - a <= MAX_RESERVATION_TIME /\
  Spot.reservationEnd sp <= a /\ cost <= value c /\
  nextReservationId st' = id + 1 /\
  ParkingSystemViews.getReservation id st'
    = inr (Reservation.mk id (sender c) s a b cost (value c) Active 0 0, st', []) /\
  ParkingSystemViews.getUserReservations (sender c) st'
    = inr (default [] (userReservations st !! sender c) ++ [id], st', []) /\
  Spot.reservationEnd (spot_at st' s) = b /\
  evs = (if value c >? cost then [Transfer (sender c) (value c - cost)] else [])
        ++ [ReservationCreated id (sender c) s a b cost].
Proof.
  intros H. cbv zeta.
  unfold reserveSpot, whenNotPaused, spotExistsModifier, set_nextReservationId,
    set_reservation, set_userReservations, set_spot in H.
  sym H; injection H as <- <- <-; zb.
  all: match goal with Hp : negb (paused _) = true |- _ =>
         apply negb_true_iff in Hp end.
  all: match goal with Ho : negb (Spot.isOccupied _) = true |- _ =>
         apply negb_true_iff in Ho end.
  all: rewrite getReservation_at by (simpl; lia).
  all: unfold ParkingSystemViews.getUserReservations, reservation_at, spot_at;
       cbv beta iota zeta delta [bind get ret]; simpl.
  all: rewrite ?lookup_insert_eq; simpl.
  all: repeat match goal with |- _ /\ _ => split end; try reflexivity; try lia;
       try assumption.
Qed.

Lemma reserve_then_get_witness :
  let st := step (mkCtx 1 10 0) (CreateParkingSpot "A1" 3600) (init 1 2) in
  exists st' evs, reserveSpot (mkCtx 5 100 9000) 1 4000 11200 st = inr (tt, st', evs) /\
  ParkingSystemViews.getReservation 1 st'
    = inr (Reservation.mk 1 5 1 4000 11200 7200 9000 Active 0 0, st', []) /\
  evs = [Transfer 5 1800; ReservationCreated 1 5 1 4000 11200 7200].
Proof.
  cbv zeta.
  destruct (reserveSpot (mkCtx 5 100 9000) 1 4000 11200
    (step (mkCtx 1 10 0) (CreateParkingSpot "A1" 3600) (init 1 2)))
    as [e|[[u st'] evs]] eqn:H; [vm_compute in H; discriminate|].
  pose proof (reserve_then_get _ _ _ _ _ _ _ _ H) as R. cbv zeta in R.
  destruct R as (_ & _ & _ & _ & _ & _ & _ & _ & Hg & _ & _ & Hev).
  destruct u. exists st', evs. split; [reflexivity|].
  vm_compute in Hg, Hev. split; [exact Hg | exact Hev].
Defined.



(** Only [updatePlatformFee] writes the fee. *)
Lemma step_fee st c call :
  platformFeePercentage (step c call st) = platformFeePercentage st \/
  exists f, call = UpdatePlatformFee f /\ f <= 20 /\
            platformFeePercentage (step c call st) = f.
Proof.
  unfold step, exec.
  destruct (dispatch c call st) as [e|[[u st'] evs]] eqn:H; [left; auto|].
  destruct call; simpl in H; psym H.
  all: injection H as _ <- _; simpl; auto.
  right. eexists; split; [reflexivity|]. zb. split; [lia|reflexivity].
Qed.

Lemma complete_cost_nonneg c rid st u st' evs :
  completeReservation c rid st = inr (u, st', evs) ->
  let r := reservation_at st rid in
  0 <= (now c - Reservation.actualStartTime r)
       * Spot.hourlyRate (spot_at st (Reservation.spotId r)).
Proof.
  intros H. unfold completeReservation, onlyOracle, validReservation,
    set_reservation, set_spot, set_totalPlatformEarnings in H.
  cbv zeta. sym H; zb; lia.
Qed.

(** Along ABI-valid transactions the platform fee stays within
    [0, 20] percent, so a completion credits the platform with at most a
    fifth of the actual cost and the spot with the rest. *)
Theorem platform_fee_capped st :
  ParkingSystemViews.abi_reachable st ->
  0 <= platformFeePercentage st <= 20 /\
  forall c rid u st' evs, completeReservation c rid st = inr (u, st', evs) ->
  let r := reservation_at st rid in
  let sid := Reservation.spotId r in
  let actualCost := (now c - Reservation.actualStartTime r)
                    * Spot.hourlyRate (spot_at st sid) / 3600 in
  let platformFee := totalPlatformEarnings st' - totalPlatformEarnings st in
  0 <= platformFee /\ platformFee * 5 <= actualCost /\
  Spot.totalEarnings (spot_at st' sid) - Spot.totalEarnings (spot_at st sid)
  = actualCost - platformFee.
Proof.
  intros Hr.
  assert (Hf : 0 <= platformFeePercentage st <= 20).
  { induction Hr as [d o _ _|st c call _ IH _ Hw].
    - simpl. lia.
    - destruct (step_fee st c call) as [->|(f & -> & Hf & ->)]; [exact IH|].
      simpl in Hw. unfold ParkingOracle.uint in Hw. lia. }
  split; [exact Hf|].
  intros c rid u st' evs H. cbv zeta.
  pose proof (complete_cost_nonneg _ _ _ _ _ _ H) as Hc. cbv zeta in Hc.
  destruct (completeReservation_outcome c rid st u st' evs H)
    as (_ & Hps & _ & Hp & _).
  rewrite Hp.
  assert (Hsp : Spot.totalEarnings (spot_at st' (Reservation.spotId (reservation_at st rid)))
    = Spot.totalEarnings (spot_at st (Reservation.spotId (reservation_at st rid)))
      + ((now c - Reservation.actualStartTime (reservation_at st rid))
          * Spot.hourlyRate (spot_at st (Reservation.spotId (reservation_at st rid))) / 3600
         - (now c - Reservation.actualStartTime (reservation_at st rid))
          * Spot.hourlyRate (spot_at st (Reservation.spotId (reservation_at st rid))) / 3600
           * platformFeePercentage st / 100))
    by (unfold spot_at at 1; rewrite Hps, lookup_insert_eq; reflexivity).
  rewrite Hsp.
  set (ac := (now c - Reservation.actualStartTime (reservation_at st rid))
          * Spot.hourlyRate (spot_at st (Reservation.spotId (reservation_at st rid))) / 3600).
  assert (Hac : 0 <= ac) by (apply Z.div_pos; lia).
  assert (Hle : ac * platformFeePercentage st / 100 <= ac * 20 / 100)
    by (apply Z.div_le_mono; [lia| apply Z.mul_le_mono_nonneg_l; lia]).
  assert (H0 : 0 <= ac * platformFeePercentage st / 100)
    by (apply Z.div_pos; [apply Z.mul_nonneg_nonneg|]; lia).
  split; [lia|]. split; [|lia].
  assert (Hq : ac * 20 / 100 = ac / 5)
    by (change 100 with (5 * 20); apply Z.div_mul_cancel_r; lia).
  pose proof (Z.mul_div_le ac 5 ltac:(lia)). lia.
Qed.

Lemma platform_fee_capped_witness :
  let st := step (mkCtx 1 10 0) (UpdatePlatformFee 20) (init 1 2) in
  ParkingSystemViews.abi_reachable st /\ platformFeePercentage st = 20 /\
  0 <= platformFeePercentage st <= 20.
Proof.
  cbv zeta.
  assert (H : ParkingSystemViews.abi_reachable
                (step (mkCtx 1 10 0) (UpdatePlatformFee 20) (init 1 2))).
  { apply ParkingSystemViews.abi_reachable_step; [apply ParkingSystemViews.abi_reachable_init|..];
      unfold ParkingSystemViews.wf_ctx, ParkingSystemViews.wf_call,
        ParkingOracle.addr, ParkingOracle.uint; simpl;
      repeat match goal with |- _ /\ _ => split end;
      first [vm_compute; discriminate | vm_compute; reflexivity]. }
  split; [exact H|]. split; [reflexivity|]. exact (proj1 (platform_fee_capped _ H)).
Defined.







(** With the contract's balance [bal], the owner's
    [withdrawPlatformEarnings] sends the whole accumulated platform earnings
    to the owner and resets them to zero when the balance covers them (an
    immediate second withdrawal then sends 0), and reverts in the [transfer]
    when the balance is below the earnings. *)
Theorem withdraw_drains st c bal :
  sender c = owner st -> value c = 0 ->
  let e := totalPlatformEarnings st in
  (e <= bal ->
   exists st',
     transact c WithdrawPlatformEarnings st bal
       = inr (st', bal - e, [Transfer (owner st) e]) /\
     totalPlatformEarnings st' = 0 /\ owner st' = owner st /\
     transact c WithdrawPlatformEarnings st' (bal - e)
       = inr (st', bal - e, [Transfer (owner st) 0])) /\
  (bal < e -> transact c WithdrawPlatformEarnings st bal = inl TransferFailed).
Proof.
  intros Hc Hv e.
  rewrite !transact_nonpayable by (reflexivity || exact Hv). simpl.
  unfold withdrawPlatformEarnings, onlyOwner, set_totalPlatformEarnings.
  cbv beta iota zeta delta [bind get put require emit ret].
  rewrite Hc, Z.eqb_refl. simpl. split.
  - intros Hb. unfold e in *. rewrite !Z.add_0_r, (proj2 (Z.leb_le _ _) Hb).
    eexists. split; [reflexivity|].
    split; [reflexivity|]. split; [reflexivity|].
    rewrite transact_nonpayable by (reflexivity || exact Hv). simpl.
    unfold withdrawPlatformEarnings, onlyOwner, set_totalPlatformEarnings.
    cbv beta iota zeta delta [bind get put require emit ret]. simpl.
    rewrite Hc, Z.eqb_refl. simpl.
    replace (0 + 0 <=? bal - totalPlatformEarnings st) with true
      by (symmetry; apply Z.leb_le; lia).
    by rewrite Z.sub_0_r.
  - intros Hb. unfold e in *. rewrite Z.add_0_r. by rewrite (proj2 (Z.leb_gt _ _) Hb).
Qed.

Lemma withdraw_drains_witness :
  let sb := ledger_run (firstn 4 trace_life) (init 1 2, 0) in
  let sb' := ledger_run overstay_trace (init 1 2, 0) in
  totalPlatformEarnings sb.1 = 540 /\ sb.2 = 5400 /\
  (exists st',
     transact (mkCtx 1 9500 0) WithdrawPlatformEarnings sb.1 sb.2
       = inr (st', 4860, [Transfer 1 540]) /\ totalPlatformEarnings st' = 0) /\
  totalPlatformEarnings sb'.1 = 36000 /\ sb'.2 = 3600 /\
  transact (mkCtx 1 364100 0) WithdrawPlatformEarnings sb'.1 sb'.2 = inl TransferFailed.
Proof.
  intros sb sb'.
  assert (He : totalPlatformEarnings sb.1 = 540) by (vm_compute; reflexivity).
  assert (Hb : sb.2 = 5400) by (vm_compute; reflexivity).
  assert (He' : totalPlatformEarnings sb'.1 = 36000) by (vm_compute; reflexivity).
  assert (Hb' : sb'.2 = 3600) by (vm_compute; reflexivity).
  assert (Ho : sender (mkCtx 1 9500 0) = owner sb.1) by (vm_compute; reflexivity).
  assert (Ho' : sender (mkCtx 1 364100 0) = owner sb'.1) by (vm_compute; reflexivity).
  split; [exact He|]. split; [exact Hb|]. split.
  - destruct (proj1 (withdraw_drains sb.1 (mkCtx 1 9500 0) sb.2 Ho eq_refl)
                ltac:(rewrite He, Hb; lia)) as (st' & H1 & H2 & _).
    exists st'. rewrite He, Hb in H1. split; [exact H1|exact H2].
  - split; [exact He'|]. split; [exact Hb'|].
    apply (proj2 (withdraw_drains sb'.1 (mkCtx 1 364100 0) sb'.2 Ho' eq_refl)).
    rewrite He', Hb'. lia.
Defined.
End ParkingSystemExtra.

Module ParkingOracleExtra.
Import ParkingOracle ParkingOracleViews ParkingOracleProofs.

Lemma first_index_spec l a :
  match first_index l a with
  | Some i => exists l1 l2, l = l1 ++ a :: l2 /\ length l1 = i /\ a ∉ l1
  | None => a ∉ l
  end.
Proof.
  induction l as [|x l IH]; simpl.
  - apply not_elem_of_nil.
  - destruct (x =? a) eqn:E.
    + apply Z.eqb_eq in E. subst. exists [], l. split; [reflexivity|].
      split; [reflexivity|]. apply not_elem_of_nil.
    + apply Z.eqb_neq in E. destruct (first_index l a) as [i|]; simpl.
      * destruct IH as (l1 & l2 & -> & <- & Hn). exists (x :: l1), l2.
        split; [reflexivity|]. split; [reflexivity|].
        rewrite not_elem_of_cons. split; [congruence|exact Hn].
      * rewrite not_elem_of_cons. split; [congruence|exact IH].
Qed.

Lemma remove_active_cases l a :
  (a ∈ l -> a :: remove_active l a ≡ₚ l /\
            length (remove_active l a) = pred (length l)) /\
  (a ∉ l -> remove_active l a = l).
Proof.
  unfold remove_active. pose proof (first_index_spec l a) as Hs.
  destruct (first_index l a) as [i|].
  - destruct Hs as (l1 & l2 & -> & <- & Hn). split; [|intros Hx; set_solver].
    intros _. destruct l2 as [|z l2 _] using rev_ind.
    + rewrite last_last.
      rewrite insert_app_r_alt by lia. rewrite Nat.sub_diag. simpl.
      rewrite removelast_last. split; [|rewrite length_app; simpl; lia].
      rewrite Permutation_app_comm. reflexivity.
    + rewrite app_comm_cons, app_assoc, last_last.
      rewrite <- app_assoc, <- app_comm_cons.
      rewrite insert_app_r_alt by lia. rewrite Nat.sub_diag. simpl.
      rewrite app_comm_cons, app_assoc, removelast_last.
      split.
      * rewrite <- (Permutation_middle l1 (l2 ++ [z]) a).
        constructor. apply Permutation_app_head.
        rewrite (Permutation_app_comm l2 [z]). reflexivity.
      * rewrite !length_app. simpl. rewrite length_app. simpl. lia.
  - split; [intros Hx; contradiction|reflexivity].
Qed.

Lemma remove_active_elem l a b :
  (b ∈ remove_active l a -> b ∈ l) /\ (b ∈ l -> b <> a -> b ∈ remove_active l a).
Proof.
  destruct (remove_active_cases l a) as [Hin Hout].
  destruct (decide (a ∈ l)) as [Ha|Ha].
  - destruct (Hin Ha) as [Hp _]. split.
    + intros Hb. rewrite <- Hp. set_solver.
    + intros Hb Hne. rewrite <- Hp in Hb. set_solver.
  - rewrite (Hout Ha). tauto.
Qed.

Lemma shift_loop_S fuel i h :
  shift_loop (S fuel) i h =
  if Z.of_nat i <? Z.of_nat (length h) - MAX_HISTORY_SIZE then
    match h !! (i + 1)%nat with
    | Some x => shift_loop fuel (S i) (<[i := x]> h)
    | None => None
    end
  else Some h.
Proof. reflexivity. Qed.

Lemma push_history_spec h x st :
  (length h <= 100)%nat ->
  exists h', push_history h x st = inr (h', st, []) /\
  (length h' <= 100)%nat /\ ((length h < 100)%nat -> h' = h ++ [x]).
Proof.
  intros Hl. unfold push_history.
  destruct (decide (length h < 100)%nat) as [Hlt|Hge].
  - rewrite Z.gtb_ltb, (proj2 (Z.ltb_ge _ _));
      [|rewrite length_app; simpl; unfold MAX_HISTORY_SIZE; lia].
    eexists; split; [reflexivity|]. rewrite length_app; simpl. split; [lia|auto].
  - assert (H100 : length h = 100%nat) by lia.
    rewrite Z.gtb_ltb, (proj2 (Z.ltb_lt _ _));
      [|rewrite length_app, H100; simpl; unfold MAX_HISTORY_SIZE; lia].
    destruct (lookup_lt_is_Some_2 h 1) as [y Hy]; [lia|].
    replace (length (h ++ [x])) with 101%nat by (rewrite length_app, H100; reflexivity).
    rewrite shift_loop_S, length_app, H100.
    rewrite (proj2 (Z.ltb_lt _ _)) by (unfold MAX_HISTORY_SIZE; simpl; lia).
    change (0 + 1)%nat with 1%nat. rewrite lookup_app_l by lia. rewrite Hy.
    rewrite shift_loop_S, length_insert, length_app, H100.
    rewrite (proj2 (Z.ltb_ge _ _)) by (unfold MAX_HISTORY_SIZE; simpl; lia).
    eexists; split; [reflexivity|].
    rewrite insert_app_l by lia. rewrite removelast_last.
    rewrite length_insert. split; lia.
Qed.

Lemma push_history_pure h x st r :
  push_history h x st = r ->
  (exists h', r = inr (h', st, [])) \/ r = inl Panic.
Proof.
  intros <-. unfold push_history.
  destruct (_ >? _); [|left; eexists; reflexivity].
  destruct (shift_loop _ _ _); [left; eexists; reflexivity|right; reflexivity].
Qed.

#[local] Hint Rewrite latest_at_with_node latest_at_with_history latest_at_with_processed latest_at_with_activeOracles latest_at_with_parkingSystemContract latest_at_with_owner latest_at_with_paused history_at_with_node history_at_with_latest history_at_with_processed history_at_with_activeOracles history_at_with_parkingSystemContract history_at_with_owner history_at_with_paused processed_with_node processed_with_latest processed_with_history processed_with_activeOracles processed_with_parkingSystemContract processed_with_owner processed_with_paused : oracle_data.
#[local] Hint Rewrite processed_with_processed history_at_with_history latest_at_with_latest : oracle_data.

#[local] Hint Rewrite node_at_with_node node_at_with_latest node_at_with_history
  node_at_with_processed node_at_with_activeOracles
  node_at_with_parkingSystemContract node_at_with_owner node_at_with_paused
  isActive_set_reputation reputation_set_reputation
  isActive_set_isActive reputation_set_isActive : oracle.

Lemma push_history_ok h x st h' st' l :
  push_history h x st = inr (h', st', l) -> st' = st /\ l = [].
Proof.
  intros H. destruct (push_history_pure h x st _ H) as [[h'' E]|E];
    [injection E as _ <- <-; auto | discriminate].
Qed.

(** Symbolic execution that keeps [push_history] folded. *)
Ltac osym_h H :=
  unfold updateSensorData, addOracleNode, removeOracleNode,
    updateParkingSystemContract, updateOracleReputation, pause, unpause,
    transferOwnership, renounceOwnership, onlyAuthorizedOracle, onlyOwner,
    whenNotPaused, whenPaused, validSpotId, cooldownPassed, _validateSensorData,
    _penalizeOracle, _rewardOracle, _shouldNotifyParkingSystem,
    _notifyParkingSystem, modify in H;
  cbv beta iota zeta delta [bind get put require checked emit ret negb andb orb]
    in H;
  repeat (match type of H with
          | context [match push_history ?h ?x ?s with _ => _ end] =>
              let E := fresh "Ep" in
              destruct (push_history h x s) as [?|[[? ?] ?]] eqn:E
          | context [if ?b then _ else _] =>
              let E := fresh "E" in destruct b eqn:E
          | context [match ?o with Some _ => _ | None => _ end] =>
              let E := fresh "E" in destruct o eqn:E
          end; cbv beta iota zeta in H);
  try discriminate H.

Lemma step_history_bound st c call :
  (forall k, (length (history_at st k) <= 100)%nat) ->
  forall k, (length (history_at (step c call st) k) <= 100)%nat.
Proof.
  intros Hb k. unfold step, exec.
  destruct (dispatch c call st) as [e|[[u st'] evs]] eqn:H; [apply Hb|].
  destruct call; simpl in H; osym_h H.
  all: injection H as _ <- _.
  all: try (autorewrite with oracle_data; apply Hb).
  all: match goal with Ep : push_history _ _ _ = inr _ |- _ =>
         pose proof (push_history_ok _ _ _ _ _ _ Ep) as [-> ->];
         autorewrite with oracle_data in Ep end.
  all: autorewrite with oracle_data; case_decide; [subst|apply Hb].
  all: match goal with Ep : push_history ?h ?x ?s = inr (?h', _, _) |- _ =>
         destruct (push_history_spec h x s (Hb _)) as (h2 & Hpe & Hpl & _);
         rewrite Hpe in Ep; injection Ep as <-; exact Hpl end.
Qed.

(** [getSensorHistory] never returns more than [MAX_HISTORY_SIZE] readings. *)
Theorem history_bounded st k :
  reachable st ->
  exists l, getSensorHistory k st = inr (l, st, []) /\
            Z.of_nat (length l) <= MAX_HISTORY_SIZE.
Proof.
  intros Hr. exists (history_at st k). split; [reflexivity|].
  enough (H : forall k, (length (history_at st k) <= 100)%nat)
    by (specialize (H k); unfold MAX_HISTORY_SIZE; lia).
  induction Hr as [d p _ _|st c call _ IH _ _].
  - intros j. unfold history_at. simpl. rewrite lookup_empty. simpl. lia.
  - by apply step_history_bound.
Qed.

(** An accepted reading (one whose hash gets recorded) becomes the spot's
    latest data, is appended to a history of fewer than 100 entries, counts
    as an update of the sending node, and leaves the other spots alone. *)
Theorem accepted_reading c s o k t h st u st' evs :
  updateSensorData c s o k t h st = inr (u, st', evs) ->
  processed st' h = true ->
  let newData := SensorData.mk s o k (now c) t h in
  getLatestSensorData s st' = inr (newData, st', []) /\
  ((length (history_at st s) < 100)%nat ->
   getSensorHistory s st' = inr (history_at st s ++ [newData], st', [])) /\
  (forall s', s' <> s ->
   latest_at st' s' = latest_at st s' /\ history_at st' s' = history_at st s') /\
  OracleNode.totalUpdates (node_at st' (sender c))
  = OracleNode.totalUpdates (node_at st (sender c)) + 1 /\
  OracleNode.lastUpdate (node_at st' (sender c)) = now c /\
  last evs = Some (SensorDataUpdated s o k (sender c) t).
Proof.
  intros H Hp. cbv zeta.
  osym_h H.
  all: injection H as _ <- <-.
  all: try (autorewrite with oracle_data in Hp;
            match goal with E : (if processed _ _ then false else true) = true |- _ =>
              rewrite Hp in E; discriminate E end).
  all: match goal with Ep : push_history _ _ _ = inr _ |- _ =>
         pose proof (push_history_ok _ _ _ _ _ _ Ep) as [-> ->];
         autorewrite with oracle_data in Ep end.
  all: unfold getLatestSensorData, getSensorHistory;
       cbv beta iota zeta delta [bind get ret].
  all: autorewrite with oracle_data oracle in *.
  all: rewrite ?decide_True by reflexivity; simpl.
  all: split; [reflexivity|].
  all: split; [intros Hlen;
               match goal with Ep : push_history ?h1 ?x1 ?s1 = inr _ |- _ =>
                 destruct (push_history_spec h1 x1 s1 (Nat.lt_le_incl _ _ Hlen))
                   as (h2 & Hpe & _ & Hpa);
                 rewrite Hpe in Ep; injection Ep as <-; rewrite (Hpa Hlen) end;
               reflexivity|].
  all: split; [intros s' Hne; autorewrite with oracle_data; rewrite !decide_False by congruence; split; reflexivity|].
  all: split; [reflexivity|]; split; reflexivity.
Qed.

Lemma history_bounded_witness :
  reachable OracleTraces.st_one /\
  exists l, getSensorHistory 3 OracleTraces.st_one = inr (l, OracleTraces.st_one, []) /\
            Z.of_nat (length l) <= MAX_HISTORY_SIZE.
Proof.
  assert (H : reachable OracleTraces.st_one).
  { unfold OracleTraces.st_one, OracleTraces.st_added. reachable_tac. }
  split; [exact H|]. exact (history_bounded _ 3 H).
Defined.

Lemma accepted_reading_witness :
  exists st' evs,
    updateSensorData (mkCtx 7 1040) 3 false 90 "ir" 1 OracleTraces.st_added
      = inr (tt, st', evs) /\
    processed st' 1 = true /\
    getLatestSensorData 3 st' = inr (SensorData.mk 3 false 90 1040 "ir" 1, st', []).
Proof.
  destruct (updateSensorData (mkCtx 7 1040) 3 false 90 "ir" 1 OracleTraces.st_added)
    as [e|[[[] st'] evs]] eqn:H; [vm_compute in H; discriminate|].
  assert (Hp : processed st' 1 = true).
  { vm_compute in H. injection H as <- _. reflexivity. }
  exists st', evs. split; [reflexivity|]. split; [exact Hp|].
  exact (proj1 (accepted_reading _ _ _ _ _ _ _ _ _ _ H Hp)).
Defined.

Definition active_inv (st : State) : Prop :=
  (forall a, OracleNode.isActive (node_at st a) = true -> a ∈ activeOracles st) /\
  (forall a, a ∈ activeOracles st ->
             OracleNode.nodeAddress (node_at st a) = a /\ a <> 0).

Lemma active_inv_ext st st' :
  (forall a, node_at st' a = node_at st a) -> activeOracles st' = activeOracles st ->
  active_inv st -> active_inv st'.
Proof.
  intros Hn Hl [H1 H2]. split; intros a; rewrite Hn, Hl; [apply H1|apply H2].
Qed.

Lemma active_inv_node_update st x n :
  active_inv st ->
  OracleNode.nodeAddress n = OracleNode.nodeAddress (node_at st x) ->
  (OracleNode.isActive n = true -> OracleNode.isActive (node_at st x) = true) ->
  active_inv (with_node x n st).
Proof.
  intros [H1 H2] Ha Hi. split; intros a; autorewrite with oracle; simpl;
    case_decide; subst; auto.
  - intros Hx. destruct (H2 a Hx) as [<- Hz]. auto.
Qed.

Lemma step_active_inv st c call :
  active_inv st -> active_inv (step c call st).
Proof.
  intros Hinv. pose proof Hinv as [Ha Hl]. unfold step, exec.
  destruct (dispatch c call st) as [e|[[u st'] evs]] eqn:H; [exact Hinv|].
  destruct call; simpl in H; osym_h H.
  all: injection H as _ <- _.
  all: try (match goal with Ep : push_history _ _ _ = inr _ |- _ =>
              pose proof (push_history_ok _ _ _ _ _ _ Ep) as [-> ->] end).
  all: repeat (apply active_inv_node_update;
                [|autorewrite with oracle; simpl; rewrite ?decide_True by reflexivity;
                  reflexivity
                 |autorewrite with oracle; simpl; rewrite ?decide_True by reflexivity;
                  first [discriminate|auto]]).
  all: try (eapply active_inv_ext; [| |exact Hinv];
            [intros a; autorewrite with oracle; reflexivity|reflexivity]).
  - assert (Hz : nodeAddress <> 0)
      by (destruct (nodeAddress =? 0) eqn:Ez; [discriminate|by apply Z.eqb_neq]).
    split; intros a; autorewrite with oracle; simpl; case_decide; subst.
    + intros _. set_solver.
    + intros Hx. apply Ha in Hx. set_solver.
    + intros _. simpl. auto.
    + intros Hx. apply elem_of_app in Hx as [Hx|Hx]; [by apply Hl|set_solver].
  - split; intros a; autorewrite with oracle; simpl; case_decide; subst.
    + simpl. discriminate.
    + intros Hx. apply Ha in Hx. by apply remove_active_elem.
    + intros Hx. apply remove_active_elem in Hx. apply Hl in Hx. exact Hx.
    + intros Hx. apply remove_active_elem in Hx. by apply Hl.
Qed.

(** Every active node is listed in [activeOracles], and every listed address
    is nonzero and holds a node record registered under that address. *)
Theorem active_oracles_listed st a :
  reachable st ->
  (OracleNode.isActive (node_at st a) = true -> a ∈ activeOracles st) /\
  (a ∈ activeOracles st -> OracleNode.nodeAddress (node_at st a) = a /\ a <> 0).
Proof.
  intros Hr. enough (H : active_inv st) by (destruct H as [H1 H2]; auto).
  induction Hr as [d p _ _|st c call _ IH _ _].
  - split; intros b; unfold node_at; simpl; rewrite lookup_empty; simpl.
    + discriminate.
    + intros Hb. apply not_elem_of_nil in Hb. contradiction.
  - by apply step_active_inv.
Qed.

Lemma active_oracles_listed_witness :
  reachable OracleTraces.st_added /\ 7 ∈ activeOracles OracleTraces.st_added /\
  OracleNode.nodeAddress (node_at OracleTraces.st_added 7) = 7.
Proof.
  assert (Hr : reachable OracleTraces.st_added)
    by (unfold OracleTraces.st_added; reachable_tac).
  pose proof (active_oracles_listed _ 7 Hr) as [H1 H2].
  assert (Hin : 7 ∈ activeOracles OracleTraces.st_added)
    by (apply H1; vm_compute; reflexivity).
  split; [exact Hr|]. split; [exact Hin|]. exact (proj1 (H2 Hin)).
Defined.

(** [addOracleNode] by the owner for a nonzero address whose node is not
    active stores a fresh node (reputation 500, no updates), whatever the
    address held before, and appends the address to [activeOracles]. *)
Theorem add_then_get c a id st :
  sender c = owner st -> a <> 0 -> OracleNode.isActive (node_at st a) = false ->
  exists st',
    addOracleNode c a id st = inr (tt, st', [OracleNodeAdded a id]) /\
    getOracleNode a st' = inr (OracleNode.mk a true 500 0 0 id, st', []) /\
    getActiveOracles st' = inr (activeOracles st ++ [a], st', []) /\
    (forall b, b <> a -> node_at st' b = node_at st b).
Proof.
  intros Hc Ha Hi. eexists.
  unfold addOracleNode, onlyOwner, modify.
  cbv beta iota zeta delta [bind get put require emit ret].
  rewrite Hc, Z.eqb_refl, (proj2 (Z.eqb_neq a 0) Ha). simpl. rewrite Hi. simpl.
  split; [reflexivity|].
  unfold getOracleNode, getActiveOracles. cbv beta iota zeta delta [bind get ret].
  autorewrite with oracle. simpl. rewrite decide_True by reflexivity.
  split; [reflexivity|]. split; [reflexivity|].
  intros b Hb. autorewrite with oracle. by rewrite decide_False by congruence.
Qed.

Lemma add_then_get_witness :
  exists st',
    addOracleNode (mkCtx 1 10) 7 "n7" (init 1 99) = inr (tt, st', [OracleNodeAdded 7 "n7"]) /\
    getOracleNode 7 st' = inr (OracleNode.mk 7 true 500 0 0 "n7", st', []).
Proof.
  destruct (add_then_get (mkCtx 1 10) 7 "n7" (init 1 99) eq_refl ltac:(lia) eq_refl)
    as (st' & H1 & H2 & _).
  exists st'. split; [exact H1|exact H2].
Defined.

(** [removeOracleNode] by the owner for an active node only clears the node's
    [isActive] flag (reputation and counters are kept), applies the
    swap-and-pop removal to [activeOracles], and from then on the removed
    address can no longer submit readings. *)
Theorem remove_then_get c a st :
  sender c = owner st -> OracleNode.isActive (node_at st a) = true ->
  exists st',
    removeOracleNode c a st = inr (tt, st', [OracleNodeRemoved a]) /\
    node_at st' a = set_isActive (node_at st a) false /\
    activeOracles st' = remove_active (activeOracles st) a /\
    (forall b, b <> a -> node_at st' b = node_at st b) /\
    (forall c' s o k t h, sender c' = a ->
       updateSensorData c' s o k t h st' = inl OracleNonAutorise).
Proof.
  intros Hc Hi. eexists.
  unfold removeOracleNode, onlyOwner, modify.
  cbv beta iota zeta delta [bind get put require emit ret].
  rewrite Hc, Z.eqb_refl. simpl. rewrite Hi. simpl.
  split; [reflexivity|].
  autorewrite with oracle. rewrite decide_True by reflexivity.
  split; [reflexivity|]. split; [reflexivity|].
  split; [intros b Hb; autorewrite with oracle; by rewrite decide_False by congruence|].
  intros c' s o k t h Hs.
  unfold updateSensorData, onlyAuthorizedOracle.
  cbv beta iota zeta delta [bind get require].
  autorewrite with oracle. rewrite Hs, decide_True by reflexivity.
  reflexivity.
Qed.

Lemma remove_then_get_witness :
  exists st',
    removeOracleNode (mkCtx 1 20) 7 OracleTraces.st_added
      = inr (tt, st', [OracleNodeRemoved 7]) /\
    updateSensorData (mkCtx 7 1040) 3 false 90 "ir" 1 st' = inl OracleNonAutorise.
Proof.
  destruct (remove_then_get (mkCtx 1 20) 7 OracleTraces.st_added
              ltac:(vm_compute; reflexivity) ltac:(vm_compute; reflexivity))
    as (st' & H1 & _ & _ & _ & H5).
  exists st'. split; [exact H1|]. by apply H5.
Defined.

(** [updateOracleReputation] by the owner: a value above 1000 reverts, an
    address whose record has a zero [nodeAddress] reverts, and otherwise only
    the reputation field is overwritten; in particular the [isActive] flag is
    left as it was, whatever the new reputation. *)
Theorem reputation_override c a r st :
  sender c = owner st ->
  (1000 < r -> updateOracleReputation c a r st = inl ReputationMaximale) /\
  (r <= 1000 -> OracleNode.nodeAddress (node_at st a) = 0 ->
   updateOracleReputation c a r st = inl OracleInexistant) /\
  (r <= 1000 -> OracleNode.nodeAddress (node_at st a) <> 0 ->
   exists st',
     updateOracleReputation c a r st
       = inr (tt, st', [OracleNodeUpdated a (OracleNode.isActive (node_at st a)) r]) /\
     getOracleNode a st' = inr (set_reputation (node_at st a) r, st', []) /\
     activeOracles st' = activeOracles st /\
     (forall b, b <> a -> node_at st' b = node_at st b)).
Proof.
  intros Hc.
  unfold updateOracleReputation, onlyOwner, modify.
  cbv beta iota zeta delta [bind get put require emit ret].
  rewrite Hc, Z.eqb_refl. simpl.
  split; [intros Hr; destruct (Z.leb_spec r 1000); [lia|reflexivity]|].
  split; [intros Hr Hz; rewrite (proj2 (Z.leb_le r 1000) Hr); simpl;
          rewrite Hz; reflexivity|].
  intros Hr Hz. rewrite (proj2 (Z.leb_le r 1000) Hr). simpl.
  rewrite (proj2 (Z.eqb_neq _ 0) Hz). simpl. eexists.
  split; [reflexivity|].
  unfold getOracleNode. cbv beta iota zeta delta [bind get ret].
  autorewrite with oracle. rewrite decide_True by reflexivity.
  split; [reflexivity|]. split; [reflexivity|].
  intros b Hb. autorewrite with oracle. by rewrite decide_False by congruence.
Qed.

Lemma reputation_override_witness :
  exists st',
    updateOracleReputation (mkCtx 1 20) 7 50 OracleTraces.st_added
      = inr (tt, st', [OracleNodeUpdated 7 true 50]) /\
    OracleNode.isActive (node_at st' 7) = true.
Proof.
  destruct (proj2 (proj2 (reputation_override (mkCtx 1 20) 7 50 OracleTraces.st_added
              ltac:(vm_compute; reflexivity))) ltac:(lia)
              ltac:(vm_compute; discriminate))
    as (st' & H1 & H2 & _).
  exists st'. split; [exact H1|].
  unfold getOracleNode in H2. cbv beta iota zeta delta [bind get ret] in H2.
  injection H2 as H2. rewrite H2. vm_compute. reflexivity.
Defined.

Lemma oracle_step_keeps_paused st c call :
  paused st = true -> call <> Unpause -> paused (step c call st) = true.
Proof.
  intros Hp Hn. unfold step, exec.
  destruct (dispatch c call st) as [e|[[u st'] evs]] eqn:H; [exact Hp|].
  destruct call; simpl in H; osym_h H.
  all: try (rewrite Hp in *; discriminate); try congruence.
  all: injection H as _ <- _.
  all: try (match goal with Ep : push_history _ _ _ = inr _ |- _ =>
              pose proof (push_history_ok _ _ _ _ _ _ Ep) as [-> ->] end).
  all: simpl; assumption.
Qed.

(** While the oracle is paused and no [unpause] is sent, it stays paused and
    every [updateSensorData] reverts: with [EnforcedPause] for an active node,
    with [OracleNonAutorise] for any other sender. *)
Theorem pause_freezes_readings st txs :
  paused st = true ->
  (forall tx, In tx txs -> snd tx <> Unpause) ->
  paused (run txs st) = true /\
  forall c s o k t h,
    updateSensorData c s o k t h (run txs st)
    = inl (if OracleNode.isActive (node_at (run txs st) (sender c))
           then EnforcedPause else OracleNonAutorise).
Proof.
  intros Hp Htx.
  assert (Hr : paused (run txs st) = true).
  { revert st Hp. induction txs as [|[c call] txs IH]; intros st Hp; simpl; [exact Hp|].
    apply IH; [intros tx Hin; apply Htx; right; exact Hin|].
    apply oracle_step_keeps_paused; [exact Hp|]. exact (Htx (c, call) (or_introl eq_refl)). }
  split; [exact Hr|]. intros c s o k t h.
  unfold updateSensorData, onlyAuthorizedOracle, whenNotPaused.
  cbv beta iota zeta delta [bind get require].
  destruct (OracleNode.isActive _); [|reflexivity].
  simpl. rewrite Hr. reflexivity.
Qed.

Lemma pause_freezes_readings_witness :
  let st := step (mkCtx 1 20) Pause OracleTraces.st_added in
  let txs := [(mkCtx 1 30, AddOracleNode 8 "n8")] in
  paused st = true /\
  updateSensorData (mkCtx 7 1040) 3 false 90 "ir" 1 (run txs st) = inl EnforcedPause.
Proof.
  intros st txs.
  assert (Hp : paused st = true) by (vm_compute; reflexivity).
  assert (Htx : forall tx, In tx txs -> snd tx <> Unpause)
    by (intros tx [<-|[]]; discriminate).
  split; [exact Hp|].
  rewrite (proj2 (pause_freezes_readings st txs Hp Htx)).
  vm_compute. reflexivity.
Defined.

(** From an unpaused state, the owner's [pause] followed by the owner's
    [unpause] restores the state exactly. *)
Theorem oracle_pause_unpause_roundtrip st c c' :
  sender c = owner st -> sender c' = owner st -> paused st = false ->
  step c' Unpause (step c Pause st) = st.
Proof.
  intros Hc Hc' Hp. destruct st. simpl in *.
  unfold step, exec, dispatch, pause, unpause, onlyOwner, whenNotPaused,
    whenPaused, with_paused, modify.
  cbv beta iota zeta delta [bind get put require emit ret]. simpl.
  rewrite Hc, Hp, Z.eqb_refl. simpl. rewrite Hc', Z.eqb_refl. reflexivity.
Qed.

Lemma oracle_pause_unpause_roundtrip_witness :
  sender (mkCtx 1 10) = owner OracleTraces.st_added /\
  paused OracleTraces.st_added = false /\
  step (mkCtx 1 20) Unpause (step (mkCtx 1 10) Pause OracleTraces.st_added)
  = OracleTraces.st_added.
Proof.
  assert (H1 : sender (mkCtx 1 10) = owner OracleTraces.st_added)
    by (vm_compute; reflexivity).
  assert (H2 : sender (mkCtx 1 20) = owner OracleTraces.st_added)
    by (vm_compute; reflexivity).
  assert (H3 : paused OracleTraces.st_added = false) by (vm_compute; reflexivity).
  split; [exact H1|]. split; [exact H3|].
  exact (oracle_pause_unpause_roundtrip _ _ _ H1 H2 H3).
Defined.

Lemma oracle_owner_only_reverts st c call :
  sender c <> owner st -> ParkingOracleViews.owner_only call = true ->
  dispatch c call st = inl OwnableUnauthorizedAccount.
Proof.
  intros Hs Ho. apply Z.eqb_neq in Hs.
  destruct call; try discriminate Ho; simpl;
    unfold addOracleNode, removeOracleNode, updateParkingSystemContract,
      updateOracleReputation, pause, unpause, transferOwnership,
      renounceOwnership, onlyOwner;
    cbv beta iota zeta delta [bind get require]; by rewrite Hs.
Qed.

Lemma oracle_step_owner st c call :
  sender c <> owner st -> owner (step c call st) = owner st.
Proof.
  intros Hs. unfold step, exec.
  destruct (dispatch c call st) as [e|[[u st'] evs]] eqn:H; [reflexivity|].
  destruct call; simpl in H; osym_h H.
  all: injection H as _ <- _.
  all: try (match goal with Ep : push_history _ _ _ = inr _ |- _ =>
              pose proof (push_history_ok _ _ _ _ _ _ Ep) as [-> ->] end).
  all: simpl; try reflexivity.
  all: ozb; congruence.
Qed.

(** After [renounceOwnership] the oracle's owner is the zero address for
    good: no transaction from a nonzero sender changes it, and every
    [onlyOwner] entry point (node management, reputation, pause) reverts for
    such a sender. *)
Theorem oracle_renounce_is_final st c txs :
  sender c = owner st ->
  (forall tx, In tx txs -> sender (fst tx) <> 0) ->
  let st' := run txs (step c RenounceOwnership st) in
  owner st' = 0 /\
  forall c' call, sender c' <> 0 -> ParkingOracleViews.owner_only call = true ->
    dispatch c' call st' = inl OwnableUnauthorizedAccount.
Proof.
  intros Hc Htx. cbv zeta.
  assert (H0 : owner (step c RenounceOwnership st) = 0).
  { unfold step, exec. simpl. unfold renounceOwnership, onlyOwner, with_owner, modify.
    cbv beta iota zeta delta [bind get put require emit ret].
    by rewrite Hc, Z.eqb_refl. }
  assert (Hr : owner (run txs (step c RenounceOwnership st)) = 0).
  { revert Htx H0. generalize (step c RenounceOwnership st) as s.
    induction txs as [|[c0 call0] txs IH]; intros s Htx Hs; simpl; [exact Hs|].
    apply IH.
    - intros tx Hin. apply Htx. by right.
    - rewrite oracle_step_owner; [exact Hs|]. rewrite Hs. apply (Htx (c0, call0)). by left. }
  split; [exact Hr|].
  intros c' call Hc' Ho. apply oracle_owner_only_reverts; [congruence|exact Ho].
Qed.

Lemma oracle_renounce_is_final_witness :
  sender (mkCtx 1 10) = owner OracleTraces.st_added /\
  (forall tx, In tx [(mkCtx 1 20, AddOracleNode 8 "n8")] -> sender (fst tx) <> 0) /\
  dispatch (mkCtx 1 30) (AddOracleNode 8 "n8")
    (run [(mkCtx 1 20, AddOracleNode 8 "n8")]
       (step (mkCtx 1 10) RenounceOwnership OracleTraces.st_added))
  = inl OwnableUnauthorizedAccount.
Proof.
  assert (H1 : sender (mkCtx 1 10) = owner OracleTraces.st_added)
    by (vm_compute; reflexivity).
  assert (H2 : forall tx, In tx [(mkCtx 1 20, AddOracleNode 8 "n8")] ->
                          sender (fst tx) <> 0).
  { intros tx [<-|[]]. simpl. lia. }
  split; [exact H1|]. split; [exact H2|].
  apply (proj2 (oracle_renounce_is_final _ _ _ H1 H2)); [simpl; lia|reflexivity].
Defined.

(** The swap-and-pop loop of [removeOracleNode] removes exactly one
    occurrence of the address when it is listed (the list shrinks by one and
    is otherwise a permutation of the old one), and leaves the list alone
    when the address is not listed. *)
Theorem remove_active_spec l a :
  (a ∈ l -> a :: remove_active l a ≡ₚ l /\
            length (remove_active l a) = pred (length l)) /\
  (a ∉ l -> remove_active l a = l).
Proof. exact (remove_active_cases l a). Qed.
End ParkingOracleExtra.